(** * ChromaSense: the colour-perception game engine of [src/App.tsx]

    A shallow embedding of the engine part of the React component [App]:
    the colour generator [generateColor], the handlers [startGame] and
    [handleBlockClick], the one-second interval callback and the effect that
    arms and clears it, and the part of the rendering that depends on the
    state: which screen is shown, the grid of buttons and the rank.

    JavaScript numbers are embedded as rationals [Q].  The three products
    [Math.random() * k] are rounded to the nearest binary64 value before
    [Math.floor], as the program does ([JS.mul]).  Every other number the
    engine computes is a multiple of 1/4 (or of 1/100 after [toFixed]) of
    small magnitude, on which IEEE-754 double arithmetic is exact, so the
    rational operations used for them coincide with the ones the program
    performs.  Decimal literals ([0.25], [1.5], [0.33], ...) denote the
    rationals they spell. *)

From Stdlib Require Import QArith Qround Qabs Qminmax Qpower Lqa ZArith Lia.
From Stdlib Require Import List Bool String Ascii DecimalString.
From Stdlib Require DecimalPos DecimalN.
Import ListNotations.

Open Scope Q_scope.

(** * Part I: the program *)

(** ** The ECMAScript primitives the engine uses *)

Module JS.

Definition number := Q.

(** [x < y], [x > y] and [x <= y] on numbers. *)
Definition ltb (x y : number) : bool := negb (Qle_bool y x).
Definition gtb (x y : number) : bool := ltb y x.
Definition leb (x y : number) : bool := Qle_bool x y.

(** [x === y] on numbers. *)
Definition eqb (x y : number) : bool := Qeq_bool x y.

Definition Math_floor (x : number) : number := inject_Z (Qfloor x).
Definition Math_max (x y : number) : number := Qmax x y.
Definition Math_min (x y : number) : number := Qmin x y.
Definition Math_abs (x : number) : number := Qabs x.

(** Rounding of a real result to binary64, to nearest with ties to even:
    [ilog2 x] is the exponent of a positive [x], the quantum is
    [2 ^ (exponent - 52)] (with the exponent held at -1022 for subnormals)
    and the result is the multiple of the quantum nearest to [x].  Overflow
    to [Infinity] is not represented: the products the engine forms are
    below 512. *)
Definition ilog2 (x : number) : Z :=
  let e0 := (Z.log2 (Qnum x) - Z.log2 (Zpos (Qden x)))%Z in
  if Qle_bool (2 ^ e0) x then e0 else (e0 - 1)%Z.

Definition round_half_even (y : Q) : Z :=
  let f := Qfloor y in
  match Qcompare (y - inject_Z f) 0.5 with
  | Lt => f
  | Gt => (f + 1)%Z
  | Eq => if Z.even f then f else (f + 1)%Z
  end.

Definition round_double (x : Q) : number :=
  if Qeq_bool x 0 then 0
  else
    let a := Qabs x in
    let e := Z.max (ilog2 a) (-1022) in
    let q := 2 ^ (e - 52) in
    let m := inject_Z (round_half_even (a / q)) * q in
    if ltb x 0 then - m else m.

(** [x * y] on numbers. *)
Definition mul (x y : number) : number := round_double (x * y).

(** [x % m]: the remainder has the sign of the dividend (the quotient is
    truncated towards zero). *)
Definition trunc (x : number) : Z :=
  if ltb x 0 then Qceiling x else Qfloor x.

Definition rem (x m : number) : number :=
  x - m * inject_Z (trunc (x / m)).

(** [Number(x.toFixed(2))]: [toFixed] picks the integer [n] with [n / 100]
    closest to [|x|], the larger one on a tie, keeps the sign of [x], and
    [Number] reads the decimal string back. *)
Definition toFixed2 (x : number) : number :=
  let n := Qfloor (Qabs x * 100 + 0.5) in
  if ltb x 0 then - (inject_Z n / 100) else inject_Z n / 100.

(** Number-to-string conversion inside a template literal: the decimal
    expansion of the number, which is finite (at most two fractional
    digits) for every number the engine prints.  The expansion is cut
    after twenty fractional digits. *)
Definition digit (d : Z) : ascii :=
  ascii_of_nat (48 + Z.to_nat d).

Fixpoint frac_digits (fuel : nat) (num den : Z) : string :=
  match fuel with
  | O => EmptyString
  | S fuel' =>
      if (num =? 0)%Z then EmptyString
      else String (digit (num * 10 / den))
                  (frac_digits fuel' ((num * 10) mod den) den)
  end.

Definition toString (x : number) : string :=
  let a := Qabs x in
  let den := Zpos (Qden a) in
  let ip := Qfloor a in
  let num := (Qnum a - ip * den)%Z in
  ((if ltb x 0 then "-" else "")
     ++ NilZero.string_of_uint (N.to_uint (Z.to_N ip))
     ++ (if (num =? 0)%Z then "" else "." ++ frac_digits 20 num den))%string.

End JS.

(** ** Data model *)

Inductive GameState := START | PLAYING | GAMEOVER.

Record Color := mkColor { h : Q; s : Q; l : Q }.

Record LevelData := mkLevelData {
  baseColor : Color;
  diffColor : Color;
  diffIndex : Q;
  gridSize  : Q
}.

(** The object held by the [lastDiff] state variable. *)
Record LastDiff := mkLastDiff { base : string; diff : string; shown : Q }.

(** The React state of [App], together with what the engine does to the
    outside: whether the interval kept in [timerRef] is live, how many times
    [confetti] has been called, and how many values have been drawn from
    [Math.random]. *)
Record Session := mkSession {
  gameState : GameState;
  score     : Q;
  timeLeft  : Q;
  levelData : option LevelData;
  lastDiff  : option LastDiff;
  timerRef  : bool;
  confetti  : nat;
  drawn     : nat
}.

(** [useState] initial values; nothing is live before the first effect. *)
Definition initial : Session :=
  mkSession START 0 60 None None false 0 0.

Inductive Event :=
| Start
| CellClicked (index : Q)
| Tick
| MainMenu.

(** ** The perturbation magnitude (line 49 of [generateColor]) *)

Definition delta (difficulty : Q) : Q :=
  JS.Math_max 1.5 (15 - (difficulty * 0.25)).

(** ** The display metric (lines 91-98 of [handleBlockClick]) *)

Definition colorToCss (c : Color) : string :=
  ("hsl(" ++ JS.toString (h c) ++ ", " ++ JS.toString (s c) ++ "%, "
          ++ JS.toString (l c) ++ "%)")%string.

Definition diffMetric (levelData : LevelData) : LastDiff :=
  let baseStr :=
    ("hsl(" ++ JS.toString (h (baseColor levelData)) ++ ", "
            ++ JS.toString (s (baseColor levelData)) ++ "%, "
            ++ JS.toString (l (baseColor levelData)) ++ "%)")%string in
  let diffStr :=
    ("hsl(" ++ JS.toString (h (diffColor levelData)) ++ ", "
            ++ JS.toString (s (diffColor levelData)) ++ "%, "
            ++ JS.toString (l (diffColor levelData)) ++ "%)")%string in
  let delta :=
    JS.Math_abs (h (baseColor levelData) - h (diffColor levelData))
    + JS.Math_abs (s (baseColor levelData) - s (diffColor levelData))
    + JS.Math_abs (l (baseColor levelData) - l (diffColor levelData)) in
  mkLastDiff baseStr diffStr (JS.toFixed2 delta).

(** ** The engine, over a source of random numbers *)

Section Engine.

(** [random n] is the value returned by the [n]-th call of
    [Math.random()]. *)
Variable random : nat -> Q.

(** Computations that draw from [Math.random]: the state is the number of
    values drawn so far. *)
Definition Rand (A : Type) : Type := nat -> A * nat.

Definition ret {A : Type} (a : A) : Rand A := fun n => (a, n).

Definition bind {A B : Type} (m : Rand A) (k : A -> Rand B) : Rand B :=
  fun n => let (a, n') := m n in k a n'.

Local Notation "x <- m ;; k" := (bind m (fun x => k))
  (at level 61, m at next level, right associativity).

Definition Math_random : Rand Q := fun n => (random n, S n).

Definition generateColor (difficulty : Q) : Rand LevelData :=
  r <- Math_random ;;
  let h := JS.Math_floor (JS.mul r 360) in
  r <- Math_random ;;
  let s := JS.Math_floor (JS.mul r 40) + 40 in
  r <- Math_random ;;
  let l := JS.Math_floor (JS.mul r 40) + 30 in
  let delta := delta difficulty in
  type <- Math_random ;;
  d <- (if JS.ltb type 0.33 then
          ret (JS.rem (h + delta) 360, s, l)
        else if JS.ltb type 0.66 then
          r <- Math_random ;;
          ret (h,
               JS.Math_min 100
                 (JS.Math_max 0 (s + (if JS.gtb r 0.5 then delta else - delta))),
               l)
        else
          r <- Math_random ;;
          ret (h, s,
               JS.Math_min 100
                 (JS.Math_max 0 (l + (if JS.gtb r 0.5 then delta else - delta))))) ;;
  let '(dh, ds, dl) := d in
  let gridSize := 5 in
  r <- Math_random ;;
  let diffIndex := JS.Math_floor (JS.mul r (gridSize * gridSize)) in
  ret (mkLevelData (mkColor h s l) (mkColor dh ds dl) diffIndex gridSize).

Definition startGame (st : Session) : Session :=
  let (level, n) := generateColor 0 (drawn st) in
  mkSession PLAYING 0 60 (Some level) None
            (timerRef st) (confetti st) n.

Definition handleBlockClick (index : Q) (st : Session) : Session :=
  match gameState st, levelData st with
  | PLAYING, Some level =>
      if JS.eqb index (diffIndex level) then
        let nextScore := score st + 1 in
        let (next, n) := generateColor nextScore (drawn st) in
        mkSession (gameState st) nextScore
                  (JS.Math_min 60 (timeLeft st + 2))
                  (Some next) (Some (diffMetric level))
                  (timerRef st) (confetti st) n
      else
        mkSession (gameState st) (score st)
                  (JS.Math_max 0 (timeLeft st - 5))
                  (levelData st) (lastDiff st)
                  (timerRef st) (confetti st) (drawn st)
  | _, _ => st
  end.

(** The callback given to [setInterval]. *)
Definition timerCallback (st : Session) : Session :=
  if JS.leb (timeLeft st) 1 then
    mkSession GAMEOVER (score st) 0 (levelData st) (lastDiff st)
              (timerRef st) (S (confetti st)) (drawn st)
  else
    mkSession (gameState st) (score st) (timeLeft st - 1)
              (levelData st) (lastDiff st)
              (timerRef st) (confetti st) (drawn st).

(** The two [onClick={() => setGameState('START')}] buttons. *)
Definition mainMenu (st : Session) : Session :=
  mkSession START (score st) (timeLeft st) (levelData st) (lastDiff st)
            (timerRef st) (confetti st) (drawn st).

(** The effect on [gameState]: an interval is live exactly while the state
    is [PLAYING]; the clean-up and the [else] branch clear it otherwise. *)
Definition timerEffect (st : Session) : Session :=
  mkSession (gameState st) (score st) (timeLeft st)
            (levelData st) (lastDiff st)
            (match gameState st with PLAYING => true | _ => false end)
            (confetti st) (drawn st).

Definition handle (e : Event) (st : Session) : Session :=
  match e with
  | Start => startGame st
  | CellClicked index => handleBlockClick index st
  | Tick => timerCallback st
  | MainMenu => mainMenu st
  end.

(** A tick is delivered only by a live interval. *)
Definition deliverable (e : Event) (st : Session) : bool :=
  match e with
  | Tick => timerRef st
  | _ => true
  end.

(** One event, handled to completion and followed by the effect. *)
Definition step (e : Event) (st : Session) : option Session :=
  if deliverable e st then Some (timerEffect (handle e st)) else None.

Fixpoint run (es : list Event) (st : Session) : option Session :=
  match es with
  | [] => Some st
  | e :: es' =>
      match step e st with
      | Some st' => run es' st'
      | None => None
      end
  end.

Inductive reachable : Session -> Prop :=
| reachable_initial : reachable initial
| reachable_step e st st' :
    reachable st -> step e st = Some st' -> reachable st'.

End Engine.

(** ** Observations on a generated round *)

Inductive Channel := Hue | Saturation | Lightness.

Definition channel (c : Channel) (x : Color) : Q :=
  match c with
  | Hue => h x
  | Saturation => s x
  | Lightness => l x
  end.

Definition differs (level : LevelData) (c : Channel) : bool :=
  negb (Qeq_bool (channel c (baseColor level)) (channel c (diffColor level))).

(** The channels on which the two colours of a round differ. *)
Definition perturbed (level : LevelData) : list Channel :=
  filter (differs level) [Hue; Saturation; Lightness].

Definition Channel_eqb (a b : Channel) : bool :=
  match a, b with
  | Hue, Hue | Saturation, Saturation | Lightness, Lightness => true
  | _, _ => false
  end.

(** The branch of [generateColor] taken on the draw [type]. *)
Definition branch (type : Q) : Channel :=
  if JS.ltb type 0.33 then Hue
  else if JS.ltb type 0.66 then Saturation
  else Lightness.

(** The plain L1 distance between the two colours of a round. *)
Definition L1 (level : LevelData) : Q :=
  Qabs (h (baseColor level) - h (diffColor level))
  + Qabs (s (baseColor level) - s (diffColor level))
  + Qabs (l (baseColor level) - l (diffColor level)).

(** A random source that agrees with [random] except for its [n]-th value. *)
Definition override (random : nat -> Q) (n : nat) (v : Q) : nat -> Q :=
  fun m => if Nat.eqb m n then v else random m.

(** Among the [N] equally likely values [0/N, 1/N, ..., (N-1)/N] of the draw
    that selects the channel (the fourth of [generateColor]), the number of
    those for which the generated round is perturbed on channel [c]. *)
Definition selections (random : nat -> Q) (difficulty : Q) (n N : nat)
    (c : Channel) : nat :=
  List.length
    (filter
       (fun k =>
          match perturbed
                  (fst (generateColor
                          (override random (3 + n)
                             (inject_Z (Z.of_nat k) / inject_Z (Z.of_nat N)))
                          difficulty n)) with
          | [c'] => Channel_eqb c c'
          | _ => false
          end)
       (seq 0 N)).

(** The session invariant of the specification. *)
Definition session_inv (st : Session) : Prop :=
  0 <= score st /\ 0 <= timeLeft st <= 60
  /\ (exists z : Z, timeLeft st == inject_Z z).

(** A random source as [Math.random] provides it: values in [[0, 1)]. *)
Definition in_range (random : nat -> Q) : Prop :=
  forall n, 0 <= random n < 1.

(** A binary64 value: an integer of fewer than 54 bits times a power of
    two in the exponent range.  [Math.random] returns such numbers. *)
Definition is_double (x : Q) : Prop :=
  exists m e : Z,
    (Z.abs m < 2 ^ 53)%Z /\ (-1074 <= e <= 971)%Z
    /\ x == inject_Z m * 2 ^ e.

Definition returns_doubles (random : nat -> Q) : Prop :=
  forall n, is_double (random n).

(** The reading of "each channel is chosen with probability exactly 1/3":
    of any [3 m] equally likely values of the selecting draw, exactly [m]
    perturb each channel. *)
Definition chosen_with_equal_probability : Prop :=
  forall (random : nat -> Q) (d : Z) (n m : nat) (c : Channel),
    in_range random -> (0 <= d)%Z -> (0 < m)%nat ->
    selections random (inject_Z d) n (3 * m) c = m.

(** The rounds the engine can hold: generated at an integer difficulty. *)
Definition generated (random : nat -> Q) (level : LevelData) : Prop :=
  exists (d : Z) (q : Q) (n : nat),
    (0 <= d)%Z /\ q == inject_Z d
    /\ level = fst (generateColor random q n).

(** What the session keeps track of: an integer score, and a round that was
    generated at an integer difficulty. *)
Definition tracked (random : nat -> Q) (st : Session) : Prop :=
  (exists z : Z, (0 <= z)%Z /\ score st == inject_Z z)
  /\ forall level : LevelData,
       levelData st = Some level -> generated random level.

(** Concrete sources used to run the engine: [cycle] walks through the
    tenths, and the first hue drawn from [high_hue] is 359. *)
Definition cycle : nat -> Q :=
  fun n => inject_Z (Z.of_nat (Nat.modulo (7 * n + 3) 10)) / 10.

Definition high_hue : nat -> Q :=
  fun n => match n with O => 0.999 | _ => 0 end.

(** A source of binary64 values: [dyadic] walks through the multiples of
    1/64; and the doubles nearest to 0.3 and 0.7. *)
Definition dyadic : nat -> Q :=
  fun n => inject_Z (Z.of_nat (Nat.modulo (37 * n + 19) 64)) / 64.

Definition double_0_3 : Q := 5404319552844595 # 18014398509481984.

Definition double_0_7 : Q := 3152519739159347 # 4503599627370496.

(** A source whose first two draws are the doubles nearest 0.3 and 0.7. *)
Definition near_tenths : nat -> Q :=
  fun n => match n with
           | O => double_0_3
           | S O => double_0_7
           | _ => 0
           end.

(** The session right after [Start] on the source [dyadic]. *)
Definition opening_dyadic : Session := timerEffect (startGame dyadic initial).

(** The session right after [Start] on the source [cycle], its round, and a
    session that has ended. *)
Definition opening : Session := timerEffect (startGame cycle initial).

Definition opening_level : LevelData := fst (generateColor cycle 0 0%nat).

Definition ended : Session :=
  mkSession GAMEOVER 3 0 (Some opening_level) None false 1 12.

(** ** What the component renders (lines 137-313) *)

(** [[...Array(n)].map((_, i) => f i)]: [Array(n)] throws a [RangeError]
    unless [n] is an integer in [[0, 2^32)]. *)
Definition Array_map {A : Type} (n : Q) (f : Q -> A) : option (list A) :=
  if Qeq_bool (inject_Z (Qfloor n)) n && JS.leb 0 n && JS.ltb n 4294967296
  then Some (map (fun i => f (inject_Z (Z.of_nat i)))
                 (seq 0 (Z.to_nat (Qfloor n))))
  else None.

(** The palette of the start screen. *)
Definition startSwatches : option (list string) :=
  Array_map 9
    (fun i => ("hsl(" ++ JS.toString (20 + i * 40) ++ ", 60%, 60%)")%string).

(** One button of the grid: its key, the index its [onClick] passes to
    [handleBlockClick], and its background colour. *)
Record Cell := mkCell { key : Q; onClick : Q; backgroundColor : string }.

Definition renderGrid (levelData : LevelData) : option (list Cell) :=
  Array_map (gridSize levelData * gridSize levelData)
    (fun i =>
       mkCell i i
         (if JS.eqb i (diffIndex levelData)
          then colorToCss (diffColor levelData)
          else colorToCss (baseColor levelData))).

(** The rank shown on the game-over screen. *)
Definition rank (score : Q) : string :=
  if JS.gtb score 40 then "Master"
  else if JS.gtb score 25 then "Expert"
  else if JS.gtb score 15 then "Adept"
  else "Student".

(** The children of [AnimatePresence]: each is rendered when its condition
    holds.  Static markup is left out; what depends on the state is kept. *)
Inductive Panel :=
| StartPanel (swatches : list string)
| PlayingPanel (cells : list Cell) (visualization : option LastDiff)
| GameOverPanel (finalScore : Q) (rankShown : string).

Definition renderMain (st : Session) : option (list Panel) :=
  match
    (match gameState st with
     | START => option_map (fun sw => [StartPanel sw]) startSwatches
     | _ => Some []
     end),
    (match gameState st, levelData st with
     | PLAYING, Some level =>
         option_map (fun cells => [PlayingPanel cells (lastDiff st)])
                    (renderGrid level)
     | _, _ => Some []
     end)
  with
  | Some start, Some playing =>
      Some (start ++ playing
              ++ match gameState st with
                 | GAMEOVER => [GameOverPanel (score st) (rank (score st))]
                 | _ => []
                 end)
  | _, _ => None
  end.

(** ** Further observations *)

Definition isStart (e : Event) : bool :=
  match e with Start => true | _ => false end.

Definition isClick (e : Event) : bool :=
  match e with CellClicked _ => true | _ => false end.

(** The number of games started by a list of events. *)
Definition starts (es : list Event) : nat := List.length (filter isStart es).

(** 1 while a game is being played, 0 otherwise. *)
Definition inPlay (st : Session) : nat :=
  match gameState st with PLAYING => 1 | _ => 0 end.

Definition valid_color (c : Color) : Prop :=
  0 <= h c < 360 /\ 0 <= s c <= 100 /\ 0 <= l c <= 100.

(** What every session reached from the initial one satisfies, beyond
    [session_inv] and [tracked]: the part on the React state, and the
    interval being live exactly while the game is played. *)
Definition settled (random : nat -> Q) (st : Session) : Prop :=
  (gameState st = PLAYING -> levelData st <> None)
  /\ (gameState st = GAMEOVER -> timeLeft st = 0 /\ (1 <= confetti st)%nat)
  /\ (forall level : LevelData,
         levelData st = Some level ->
         exists n : nat, level = fst (generateColor random (score st) n))
  /\ (lastDiff st = None -> score st = 0)
  /\ (forall fb : LastDiff,
         lastDiff st = Some fb ->
         exists (q : Q) (n : nat) (z : Z),
           (0 <= z)%Z /\ q == inject_Z z /\ score st = q + 1
           /\ fb = diffMetric (fst (generateColor random q n))).

Definition coherent (random : nat -> Q) (st : Session) : Prop :=
  (timerRef st = true <-> gameState st = PLAYING) /\ settled random st.

(** The decimal digits of a non-negative integer, the fractional part
    printed for a number of quarters, and the part of a string before its
    first dot. *)
Definition digits (z : Z) : string :=
  NilZero.string_of_uint (N.to_uint (Z.to_N z)).

Definition quarter_suffix (f : Z) : string :=
  if (f =? 1)%Z then ".25"
  else if (f =? 2)%Z then ".5"
  else if (f =? 3)%Z then ".75"
  else "".

Fixpoint before_dot (x : string) : string :=
  match x with
  | EmptyString => EmptyString
  | String a x' => if Ascii.eqb a "." then EmptyString
                   else String a (before_dot x')
  end.

Definition isTick (e : Event) : bool :=
  match e with Tick => true | _ => false end.

(** The number of seconds that pass in a list of events. *)
Definition ticks (es : list Event) : nat := List.length (filter isTick es).

(** The time budget of a game after [k] ticks: the seconds played and the
    seconds left are paid for by the initial 60 and by 2 per point; with
    nothing left on the clock one more second is owed to the tick that ends
    the game. *)
Definition within_budget (st : Session) (k : nat) : Prop :=
  match gameState st with
  | PLAYING =>
      inject_Z (Z.of_nat k) + timeLeft st <= 60 + 2 * score st
      /\ (timeLeft st < 1 ->
          inject_Z (Z.of_nat k) + timeLeft st <= 59 + 2 * score st)
  | _ => inject_Z (Z.of_nat k) <= 60 + 2 * score st
  end.

(** A non-negative multiple of 1/4. *)
Definition quarters (v : Q) : Prop :=
  0 <= v /\ exists k : Z, v * 4 == inject_Z k.

(** A session reached by letting the clock of a started game run out. *)
Definition timed_out : Session :=
  match run cycle (Start :: repeat Tick 60) initial with
  | Some st => st
  | None => initial
  end.

(** * Part II: properties *)

(** ** Facts about the primitives *)

Module JSFacts.

Lemma ltb_lt (x y : Q) : JS.ltb x y = true <-> x < y.
Proof.
  unfold JS.ltb. rewrite negb_true_iff.
  split; intro H.
  - apply Qnot_le_lt. intro Hle. apply Qle_bool_iff in Hle. congruence.
  - destruct (Qle_bool y x) eqn:E; [|reflexivity].
    apply Qle_bool_iff in E. lra.
Qed.

Lemma ltb_ge (x y : Q) : JS.ltb x y = false <-> y <= x.
Proof.
  unfold JS.ltb. rewrite negb_false_iff. apply Qle_bool_iff.
Qed.

Lemma leb_le (x y : Q) : JS.leb x y = true <-> x <= y.
Proof. apply Qle_bool_iff. Qed.

Lemma leb_gt (x y : Q) : JS.leb x y = false <-> y < x.
Proof.
  unfold JS.leb. split; intro H.
  - apply Qnot_le_lt. intro Hle. apply Qle_bool_iff in Hle. congruence.
  - destruct (Qle_bool x y) eqn:E; [|reflexivity].
    apply Qle_bool_iff in E. lra.
Qed.

Lemma eqb_eq (x y : Q) : JS.eqb x y = true <-> x == y.
Proof. apply Qeq_bool_iff. Qed.

Lemma eqb_neq (x y : Q) : JS.eqb x y = false <-> ~ x == y.
Proof.
  unfold JS.eqb. split; intro H.
  - intro E. apply Qeq_bool_iff in E. congruence.
  - destruct (Qeq_bool x y) eqn:E; [|reflexivity].
    apply Qeq_bool_iff in E. contradiction.
Qed.

(** The floor of a rational is the only integer within one below it. *)
Lemma floor_unique (x : Q) (z : Z) :
  inject_Z z <= x -> x < inject_Z z + 1 -> Qfloor x = z.
Proof.
  intros Hlo Hhi.
  pose proof (Qfloor_le x) as Hf1.
  pose proof (Qlt_floor x) as Hf2.
  rewrite inject_Z_plus in Hf2. change (inject_Z 1) with 1 in Hf2.
  assert (A : inject_Z (Qfloor x) < inject_Z (z + 1)).
  { rewrite inject_Z_plus. change (inject_Z 1) with 1. lra. }
  assert (B : inject_Z z < inject_Z (Qfloor x + 1)).
  { rewrite inject_Z_plus. change (inject_Z 1) with 1. lra. }
  rewrite <- Zlt_Qlt in A, B. lia.
Qed.

(** *** Rounding to binary64 *)

Lemma pow2_pos (z : Z) : 0 < 2 ^ z.
Proof. apply Qpower_0_lt. reflexivity. Qed.

Lemma pow2_nat (z : Z) : (0 <= z)%Z -> 2 ^ z == inject_Z (2 ^ z).
Proof. intro H. rewrite Zpower_Qpower by exact H. reflexivity. Qed.

Lemma ilog2_le (x : Q) : 0 < x -> 2 ^ JS.ilog2 x <= x.
Proof.
  intro Hx. unfold JS.ilog2.
  destruct (Qle_bool (2 ^ (Z.log2 (Qnum x) - Z.log2 (Z.pos (Qden x)))) x) eqn:E.
  - apply Qle_bool_iff. exact E.
  - clear E. destruct x as [n d]. cbn [Qnum Qden].
    assert (Hn : (0 < n)%Z).
    { unfold Qlt in Hx. cbn in Hx. lia. }
    pose proof (Z.log2_spec n Hn) as [A1 A2].
    pose proof (Z.log2_spec (Zpos d) ltac:(lia)) as [B1 B2].
    pose proof (Z.log2_nonneg n) as An.
    pose proof (Z.log2_nonneg (Zpos d)) as Bn.
    set (a := Z.log2 n) in *. set (b := Z.log2 (Zpos d)) in *.
    replace (a - b - 1)%Z with (a - Z.succ b)%Z by lia.
    rewrite Qpower_minus by discriminate.
    rewrite (pow2_nat a An), (pow2_nat (Z.succ b)) by lia.
    assert (P : (0 < 2 ^ Z.succ b)%Z) by (apply Z.pow_pos_nonneg; lia).
    apply Qle_shift_div_r.
    + change 0 with (inject_Z 0). rewrite <- Zlt_Qlt. exact P.
    + unfold Qle, Qmult, inject_Z. cbn [Qnum Qden]. nia.
Qed.

Lemma rhe_comp (y y' : Q) :
  y == y' -> JS.round_half_even y = JS.round_half_even y'.
Proof.
  intro E. unfold JS.round_half_even.
  rewrite (Qfloor_comp y y' E).
  replace (Qcompare (y - inject_Z (Qfloor y')) 0.5)
    with (Qcompare (y' - inject_Z (Qfloor y')) 0.5);
    [reflexivity|].
  apply Qcompare_comp; [rewrite E; reflexivity | reflexivity].
Qed.

Lemma rhe_floor (y : Q) : (Qfloor y <= JS.round_half_even y)%Z.
Proof.
  unfold JS.round_half_even.
  destruct (Qcompare (y - inject_Z (Qfloor y)) 0.5); [|lia|lia].
  destruct (Z.even (Qfloor y)); lia.
Qed.

Lemma rhe_le (y : Q) (N : Z) : y <= inject_Z N -> (JS.round_half_even y <= N)%Z.
Proof.
  intro H. unfold JS.round_half_even.
  pose proof (Qfloor_le y) as F.
  assert (FN : (Qfloor y <= N)%Z) by (rewrite Zle_Qle; lra).
  destruct (Z.eq_dec (Qfloor y) N) as [E | E].
  - assert (C : Qcompare (y - inject_Z (Qfloor y)) 0.5 = Lt).
    { rewrite <- Qlt_alt. rewrite E in F. rewrite E. lra. }
    rewrite C. lia.
  - destruct (Qcompare (y - inject_Z (Qfloor y)) 0.5); [|lia|lia].
    destruct (Z.even (Qfloor y)); lia.
Qed.

Lemma rhe_below (y : Q) (N : Z) :
  y < inject_Z N - 0.5 -> (JS.round_half_even y <= N - 1)%Z.
Proof.
  intro H. unfold JS.round_half_even.
  pose proof (Qfloor_le y) as F.
  assert (FN : (Qfloor y < N)%Z) by (rewrite Zlt_Qlt; lra).
  destruct (Z.eq_dec (Qfloor y) (N - 1)) as [E | E].
  - assert (C : Qcompare (y - inject_Z (Qfloor y)) 0.5 = Lt).
    { rewrite <- Qlt_alt. rewrite E. unfold Zminus.
      rewrite inject_Z_plus, inject_Z_opp. change (inject_Z 1) with 1.
      rewrite E in F. unfold Zminus in F.
      rewrite inject_Z_plus, inject_Z_opp in F.
      change (inject_Z 1) with 1 in F. lra. }
    rewrite C. lia.
  - destruct (Qcompare (y - inject_Z (Qfloor y)) 0.5); [|lia|lia].
    destruct (Z.even (Qfloor y)); lia.
Qed.

(** The quantum of a positive number: a power of two whose inverse is an
    integer as long as the number is below 2^53. *)
Lemma quantum (x : Q) :
  0 < x -> x < 2 ^ 53 ->
  exists P : Z,
    (0 < P)%Z
    /\ 2 ^ (Z.max (JS.ilog2 x) (-1022) - 52) == / inject_Z P
    /\ (/ inject_Z P <= x * 2 ^ (-52) \/ / inject_Z P == 2 ^ (-1074)).
Proof.
  intros H0 H53.
  pose proof (ilog2_le x H0) as L.
  assert (E52 : (JS.ilog2 x < 53)%Z).
  { apply (Qpower_lt_compat_l_inv 2); [lra | reflexivity]. }
  set (e := Z.max (JS.ilog2 x) (-1022)).
  exists (2 ^ (52 - e))%Z.
  assert (Pn : (0 <= 52 - e)%Z) by lia.
  split; [apply Z.pow_pos_nonneg; lia|].
  assert (Q1 : 2 ^ (e - 52) == / inject_Z (2 ^ (52 - e))).
  { rewrite <- (pow2_nat _ Pn). rewrite <- Qpower_opp.
    replace (- (52 - e))%Z with (e - 52)%Z by lia. reflexivity. }
  split; [exact Q1|].
  rewrite <- Q1.
  destruct (Z.max_spec (JS.ilog2 x) (-1022)) as [[_ M] | [_ M]]; fold e in M.
  - right. rewrite M. reflexivity.
  - left. rewrite M. unfold Zminus.
    rewrite Qpower_plus by discriminate.
    apply Qmult_le_compat_r; [exact L|].
    apply Qlt_le_weak, pow2_pos.
Qed.

Lemma round_double_pos (x : Q) :
  0 < x ->
  JS.round_double x
  = inject_Z (JS.round_half_even (x / 2 ^ (Z.max (JS.ilog2 x) (-1022) - 52)))
    * 2 ^ (Z.max (JS.ilog2 x) (-1022) - 52).
Proof.
  intro H. unfold JS.round_double.
  replace (Qeq_bool x 0) with false.
  2:{ symmetry. destruct (Qeq_bool x 0) eqn:E; [|reflexivity].
      apply Qeq_bool_iff in E. lra. }
  replace (JS.ltb x 0) with false.
  2:{ symmetry. unfold JS.ltb. apply negb_false_iff, Qle_bool_iff. lra. }
  destruct x as [n d].
  assert (Hn : (0 < n)%Z) by (unfold Qlt in H; cbn in H; lia).
  assert (A : Qabs (n # d) = n # d).
  { unfold Qabs. rewrite Z.abs_eq by lia. reflexivity. }
  rewrite A. reflexivity.
Qed.

Lemma round_double_zero (x : Q) : x == 0 -> JS.round_double x = 0.
Proof.
  intro H. unfold JS.round_double. apply Qeq_bool_iff in H. rewrite H.
  reflexivity.
Qed.

Lemma round_double_nonneg (x : Q) : 0 <= x -> 0 <= JS.round_double x.
Proof.
  intro H. destruct (Qeq_dec x 0) as [Z0 | N0].
  - rewrite (round_double_zero x Z0). lra.
  - assert (Hx : 0 < x) by lra.
    rewrite (round_double_pos x Hx).
    set (q := 2 ^ (Z.max (JS.ilog2 x) (-1022) - 52)).
    assert (Hq : 0 < q) by apply pow2_pos.
    apply Qmult_le_0_compat; [|lra].
    change 0 with (inject_Z 0). rewrite <- Zle_Qle.
    etransitivity; [|apply rhe_floor].
    change 0%Z with (Qfloor (inject_Z 0)). apply Qfloor_resp_le.
    apply Qle_shift_div_l; [exact Hq | change (inject_Z 0) with 0; lra].
Qed.

(** Rounding does not cross an integer below 2^53. *)
Lemma round_double_le (x : Q) (K : Z) :
  0 <= x -> x <= inject_Z K -> inject_Z K < 2 ^ 53 ->
  JS.round_double x <= inject_Z K.
Proof.
  intros H0 HK H53. destruct (Qeq_dec x 0) as [Z0 | N0].
  - rewrite (round_double_zero x Z0). lra.
  - assert (Hx : 0 < x) by lra.
    rewrite (round_double_pos x Hx).
    destruct (quantum x Hx) as (P & HP & HQ & _); [lra|].
    assert (HPq : 0 < inject_Z P)
      by (change 0 with (inject_Z 0); rewrite <- Zlt_Qlt; exact HP).
    rewrite (rhe_comp _ (x * inject_Z P)) by (rewrite HQ; field; lra).
    rewrite HQ.
    assert (B : (JS.round_half_even (x * inject_Z P) <= K * P)%Z).
    { apply rhe_le. rewrite inject_Z_mult.
      apply Qmult_le_compat_r; lra. }
    rewrite Zle_Qle, inject_Z_mult in B.
    apply Qle_shift_div_r; [exact HPq | exact B].
Qed.

(** The product of a number that is at most 1 - 2^-53 with a positive
    integer below 2^53 rounds to a double strictly below that integer. *)
Lemma round_double_lt (r : Q) (K : Z) :
  0 <= r -> r <= 1 - 2 ^ (-53) -> (0 < K)%Z -> inject_Z K < 2 ^ 53 ->
  JS.round_double (r * inject_Z K) < inject_Z K.
Proof.
  intros H0 H1 HK H53.
  assert (HKq : 0 < inject_Z K)
    by (change 0 with (inject_Z 0); rewrite <- Zlt_Qlt; exact HK).
  assert (T53 : 0 < 2 ^ (-53)) by apply pow2_pos.
  set (x := r * inject_Z K).
  assert (Hx0 : 0 <= x) by (apply Qmult_le_0_compat; lra).
  assert (HxK : x <= inject_Z K - inject_Z K * 2 ^ (-53)).
  { unfold x.
    setoid_replace (inject_Z K - inject_Z K * 2 ^ (-53))
      with ((1 - 2 ^ (-53)) * inject_Z K) by ring.
    apply Qmult_le_compat_r; lra. }
  assert (Pos : 0 < inject_Z K * 2 ^ (-53))
    by (apply Qmult_lt_0_compat; assumption).
  destruct (Qeq_dec x 0) as [Z0 | N0].
  - rewrite (round_double_zero x Z0). exact HKq.
  - assert (Hx : 0 < x) by lra.
    rewrite (round_double_pos x Hx).
    destruct (quantum x Hx) as (P & HP & HQ & Small); [lra|].
    assert (HPq : 0 < inject_Z P)
      by (change 0 with (inject_Z 0); rewrite <- Zlt_Qlt; exact HP).
    assert (HPi : 0 < / inject_Z P) by (apply Qinv_lt_0_compat; exact HPq).
    rewrite (rhe_comp _ (x * inject_Z P)) by (rewrite HQ; field; lra).
    rewrite HQ.
    assert (Half : / inject_Z P < 2 * (inject_Z K * 2 ^ (-53))).
    { assert (D : 2 * 2 ^ (-53) == 2 ^ (-52)) by reflexivity.
      assert (K1 : 1 <= inject_Z K)
        by (change 1 with (inject_Z 1); rewrite <- Zle_Qle; lia).
      assert (T52 : 0 < 2 ^ (-52)) by apply pow2_pos.
      setoid_replace (2 * (inject_Z K * 2 ^ (-53)))
        with (inject_Z K * 2 ^ (-52)) by (rewrite <- D; ring).
      destruct Small as [S | S].
      - apply (Qle_lt_trans _ _ _ S).
        apply Qmult_lt_compat_r; [exact T52 | lra].
      - rewrite S.
        apply (Qlt_le_trans _ (1 * 2 ^ (-52))).
        + rewrite Qmult_1_l. apply Qpower_lt_compat_l; [lia | reflexivity].
        + apply Qmult_le_compat_r; lra. }
    assert (B : (JS.round_half_even (x * inject_Z P) <= K * P - 1)%Z).
    { apply rhe_below. rewrite inject_Z_mult.
      assert (G : x * inject_Z P
                  <= (inject_Z K - inject_Z K * 2 ^ (-53)) * inject_Z P)
        by (apply Qmult_le_compat_r; lra).
      assert (G2 : 0.5 < (inject_Z K * 2 ^ (-53)) * inject_Z P).
      { apply (Qmult_lt_r _ _ (/ inject_Z P) HPi).
        setoid_replace (inject_Z K * 2 ^ (-53) * inject_Z P * / inject_Z P)
          with (inject_Z K * 2 ^ (-53)) by (field; lra).
        lra. }
      lra. }
    rewrite Zle_Qle in B. unfold Zminus in B.
    rewrite inject_Z_plus, inject_Z_mult, inject_Z_opp in B.
    change (inject_Z 1) with 1 in B.
    assert (B' : inject_Z (JS.round_half_even (x * inject_Z P)) * / inject_Z P
                 <= (inject_Z K * inject_Z P + - 1) * / inject_Z P)
      by (apply Qmult_le_compat_r; lra).
    setoid_replace ((inject_Z K * inject_Z P + - 1) * / inject_Z P)
      with (inject_Z K - / inject_Z P) in B' by (field; lra).
    lra.
Qed.

Lemma double_below_one (r : Q) :
  is_double r -> r < 1 -> r <= 1 - 2 ^ (-53).
Proof.
  intros (m & e & Hm & He & E) H1.
  assert (Pe : 0 < 2 ^ e) by apply pow2_pos.
  assert (V : 1 - 2 ^ (-53) == inject_Z (2 ^ 53 - 1) * 2 ^ (-53))
    by reflexivity.
  assert (T : 0 < 2 ^ (-53)) by apply pow2_pos.
  destruct (Z_lt_le_dec e (-53)) as [Hlow | Hhigh].
  - (* below one half *)
    assert (Hm' : inject_Z m <= inject_Z (2 ^ 53))
      by (rewrite <- Zle_Qle; lia).
    assert (B1 : inject_Z m * 2 ^ e <= inject_Z (2 ^ 53) * 2 ^ e)
      by (apply Qmult_le_compat_r; lra).
    assert (B2 : 2 ^ e <= 2 ^ (-54))
      by (apply Qpower_le_compat_l; [lia | discriminate]).
    assert (B3 : inject_Z (2 ^ 53) * 2 ^ e <= inject_Z (2 ^ 53) * 2 ^ (-54)).
    { rewrite !(Qmult_comm (inject_Z (2 ^ 53))).
      apply Qmult_le_compat_r; [exact B2 | discriminate]. }
    assert (B4 : inject_Z (2 ^ 53) * 2 ^ (-54) <= 1 - 2 ^ (-53))
      by discriminate.
    rewrite E. lra.
  - (* r * 2^53 is an integer below 2^53 *)
    assert (J : 2 ^ e == inject_Z (2 ^ (e + 53)) * 2 ^ (-53)).
    { rewrite <- pow2_nat by lia. rewrite <- Qpower_plus by discriminate.
      replace (e + 53 + -53)%Z with e by lia. reflexivity. }
    assert (R : r == inject_Z (m * 2 ^ (e + 53)) * 2 ^ (-53)).
    { rewrite E, J, inject_Z_mult. ring. }
    assert (L : (m * 2 ^ (e + 53) < 2 ^ 53)%Z).
    { rewrite Zlt_Qlt.
      apply (Qmult_lt_r _ _ (2 ^ (-53)) T).
      rewrite <- R.
      setoid_replace (inject_Z (2 ^ 53) * 2 ^ (-53)) with 1 by reflexivity.
      exact H1. }
    rewrite R, V. apply Qmult_le_compat_r; [|lra].
    rewrite <- Zle_Qle. lia.
Qed.

(** [Math.floor(r * k)], with the product rounded to binary64, for [r] in
    [[0, 1)] and a positive integer [k] below 2^53: an integer in
    [[0, k]], and in [[0, k)] when [r] is at most the largest binary64
    value below 1. *)
Lemma floor_product (r : Q) (k : Z) :
  0 <= r < 1 -> (0 < k)%Z -> inject_Z k < 2 ^ 53 ->
  exists z : Z,
    JS.Math_floor (JS.mul r (inject_Z k)) = inject_Z z /\ (0 <= z <= k)%Z.
Proof.
  intros [Hr0 Hr1] Hk H53.
  exists (Qfloor (JS.mul r (inject_Z k))). split; [reflexivity|].
  assert (Hk' : 0 < inject_Z k)
    by (change 0 with (inject_Z 0); rewrite <- Zlt_Qlt; exact Hk).
  assert (Hlo : 0 <= r * inject_Z k) by (apply Qmult_le_0_compat; lra).
  assert (Hhi : r * inject_Z k <= inject_Z k).
  { setoid_replace (inject_Z k) with (1 * inject_Z k) at 2 by ring.
    apply Qmult_le_compat_r; lra. }
  unfold JS.mul. split.
  - change 0%Z with (Qfloor (inject_Z 0)).
    apply Qfloor_resp_le. apply round_double_nonneg. exact Hlo.
  - rewrite <- (Qfloor_Z k) at 2.
    apply Qfloor_resp_le. apply round_double_le; assumption.
Qed.

Lemma floor_product_strict (r : Q) (k : Z) :
  0 <= r -> r <= 1 - 2 ^ (-53) -> (0 < k)%Z -> inject_Z k < 2 ^ 53 ->
  exists z : Z,
    JS.Math_floor (JS.mul r (inject_Z k)) = inject_Z z /\ (0 <= z < k)%Z.
Proof.
  intros Hr0 Hr1 Hk H53.
  exists (Qfloor (JS.mul r (inject_Z k))). split; [reflexivity|].
  assert (Hlo : 0 <= r * inject_Z k).
  { apply Qmult_le_0_compat; [exact Hr0|].
    change 0 with (inject_Z 0). rewrite <- Zle_Qle. lia. }
  unfold JS.mul. split.
  - change 0%Z with (Qfloor (inject_Z 0)).
    apply Qfloor_resp_le. apply round_double_nonneg. exact Hlo.
  - pose proof (round_double_lt r k Hr0 Hr1 Hk H53) as L.
    pose proof (Qfloor_le (JS.round_double (r * inject_Z k))) as F.
    rewrite Zlt_Qlt. lra.
Qed.

(** [x % m] when the dividend is below the modulus, and when it exceeds it
    by less than the modulus. *)
Lemma rem_small (x m : Q) : 0 < m -> 0 <= x < m -> JS.rem x m == x.
Proof.
  intros Hm [H0 H1]. unfold JS.rem, JS.trunc.
  assert (Hq : x == m * (x / m)) by (field; lra).
  assert (Hlo : 0 <= x / m).
  { apply Qle_shift_div_l; [exact Hm | lra]. }
  assert (Hhi : x / m < 1).
  { apply Qlt_shift_div_r; [exact Hm | lra]. }
  replace (JS.ltb (x / m) 0) with false
    by (symmetry; apply ltb_ge; exact Hlo).
  rewrite (floor_unique (x / m) 0)
    by (change (inject_Z 0) with 0; lra).
  change (inject_Z 0) with 0. ring.
Qed.

Lemma rem_wrap (x m : Q) : 0 < m -> m <= x < m + m -> JS.rem x m == x - m.
Proof.
  intros Hm [H0 H1]. unfold JS.rem, JS.trunc.
  assert (Hlo : 1 <= x / m).
  { apply Qle_shift_div_l; [exact Hm | lra]. }
  assert (Hhi : x / m < 2).
  { apply Qlt_shift_div_r; [exact Hm | lra]. }
  replace (JS.ltb (x / m) 0) with false
    by (symmetry; apply ltb_ge; lra).
  rewrite (floor_unique (x / m) 1)
    by (change (inject_Z 1) with 1; lra).
  change (inject_Z 1) with 1. ring.
Qed.

(** Rounding to two decimals leaves a non-negative multiple of 1/4 as it
    is. *)
Lemma toFixed2_quarters (x : Q) (k : Z) :
  0 <= x -> x * 4 == inject_Z k -> JS.toFixed2 x == x.
Proof.
  intros Hx Hk. unfold JS.toFixed2.
  replace (JS.ltb x 0) with false by (symmetry; apply ltb_ge; exact Hx).
  rewrite (Qabs_pos x Hx).
  assert (E : x * 100 == inject_Z (25 * k)).
  { rewrite inject_Z_mult. change (inject_Z 25) with 25. lra. }
  rewrite (floor_unique (x * 100 + 0.5) (25 * k)) by lra.
  rewrite <- E. field.
Qed.

End JSFacts.

(** ** The perturbation magnitude *)

Lemma delta_bounds (d : Q) : 0 <= d -> 1.5 <= delta d <= 15.
Proof.
  intro Hd. unfold delta, JS.Math_max.
  destruct (Q.max_spec 1.5 (15 - d * 0.25)) as [[H1 H2]|[H1 H2]];
    rewrite H2; lra.
Qed.

Lemma delta_above_floor (d : Q) : d < 54 -> delta d == 15 - d * 0.25.
Proof.
  intro Hd. unfold delta, JS.Math_max. apply Q.max_r. lra.
Qed.

Lemma delta_at_floor (d : Q) : 54 <= d -> delta d == 1.5.
Proof.
  intro Hd. unfold delta, JS.Math_max. apply Q.max_l. lra.
Qed.

Lemma delta_comp (d d' : Q) : d == d' -> delta d == delta d'.
Proof.
  intro E. unfold delta, JS.Math_max.
  apply Q.max_compat; [reflexivity | rewrite E; reflexivity].
Qed.

(** At an integer difficulty the magnitude is a multiple of 1/4. *)
Lemma delta_quarters (d : Z) :
  exists k : Z, delta (inject_Z d) * 4 == inject_Z k.
Proof.
  destruct (Z_lt_le_dec d 54) as [Hlt | Hge].
  - exists (60 - d)%Z.
    rewrite delta_above_floor by (rewrite Zlt_Qlt in Hlt; exact Hlt).
    unfold Zminus. rewrite inject_Z_plus, inject_Z_opp.
    change (inject_Z 60) with 60. lra.
  - exists 6%Z.
    rewrite delta_at_floor by (rewrite Zle_Qle in Hge; exact Hge).
    reflexivity.
Qed.

(** C1: for every integer difficulty [d >= 0] the perturbation magnitude is
    [max(1.5, 15 - 0.25 d)]: it is [15 - 0.25 d], strictly above the floor,
    while [d < 54]; it is [15] at [d = 0]; and it is [1.5] for every
    [d >= 54]. *)
Theorem delta_formula (d : Z) :
  (0 <= d)%Z ->
  delta (inject_Z d) == Qmax 1.5 (15 - 0.25 * inject_Z d)
  /\ delta (inject_Z 0) == 15
  /\ ((d < 54)%Z ->
      delta (inject_Z d) == 15 - 0.25 * inject_Z d /\ 1.5 < delta (inject_Z d))
  /\ ((54 <= d)%Z -> delta (inject_Z d) == 1.5).
Proof.
  intro Hd. split; [|split; [|split]].
  - unfold delta, JS.Math_max. apply Q.max_compat; [reflexivity | ring].
  - reflexivity.
  - intro H. rewrite Zlt_Qlt in H.
    assert (E : delta (inject_Z d) == 15 - inject_Z d * 0.25)
      by (apply delta_above_floor; exact H).
    change (inject_Z 54) with 54 in H.
    split; rewrite E; lra.
  - intro H. apply delta_at_floor. rewrite Zle_Qle in H. exact H.
Qed.

Lemma delta_formula_witness :
  (0 <= 20)%Z /\ delta (inject_Z 20) == Qmax 1.5 (15 - 0.25 * inject_Z 20).
Proof.
  split; [lia | apply (delta_formula 20); lia].
Defined.

(** ** The colour generator *)

Section Generator.

Variable random : nat -> Q.
Hypothesis random_range : in_range random.
Variable difficulty : Q.
Hypothesis difficulty_nonneg : 0 <= difficulty.
Variable n : nat.

Local Abbreviation level := (fst (generateColor random difficulty n)).
Local Abbreviation type := (random (3 + n)).
Local Abbreviation clamp x := (JS.Math_min 100 (JS.Math_max 0 x)).

Lemma generated_base :
  baseColor level
  = mkColor (JS.Math_floor (JS.mul (random n) 360))
            (JS.Math_floor (JS.mul (random (1 + n)) 40) + 40)
            (JS.Math_floor (JS.mul (random (2 + n)) 40) + 30).
Proof.
  cbv beta iota zeta delta [generateColor bind Math_random ret].
  destruct (JS.ltb (random (S (S (S n)))) 0.33);
    [|destruct (JS.ltb (random (S (S (S n)))) 0.66)]; reflexivity.
Qed.

Lemma generated_diff :
  match branch type with
  | Hue =>
      diffColor level
      = mkColor (JS.rem (h (baseColor level) + delta difficulty) 360)
                (s (baseColor level)) (l (baseColor level))
  | Saturation =>
      diffColor level
      = mkColor (h (baseColor level))
                (clamp (s (baseColor level)
                        + (if JS.gtb (random (4 + n)) 0.5
                           then delta difficulty else - delta difficulty)))
                (l (baseColor level))
  | Lightness =>
      diffColor level
      = mkColor (h (baseColor level)) (s (baseColor level))
                (clamp (l (baseColor level)
                        + (if JS.gtb (random (4 + n)) 0.5
                           then delta difficulty else - delta difficulty)))
  end.
Proof.
  cbv beta iota zeta delta [generateColor bind Math_random ret branch].
  change (3 + n)%nat with (S (S (S n))).
  destruct (JS.ltb (random (S (S (S n)))) 0.33);
    [|destruct (JS.ltb (random (S (S (S n)))) 0.66)]; reflexivity.
Qed.

Lemma random_floor (m : nat) (k : Z) :
  (0 < k)%Z -> inject_Z k < 2 ^ 53 ->
  exists z : Z,
    JS.Math_floor (JS.mul (random m) (inject_Z k)) = inject_Z z
    /\ (0 <= z <= k)%Z.
Proof. apply JSFacts.floor_product. apply random_range. Qed.

Lemma generated_gridSize : gridSize level = 5.
Proof.
  cbv beta iota zeta delta [generateColor bind Math_random ret].
  destruct (JS.ltb (random (S (S (S n)))) 0.33);
    [|destruct (JS.ltb (random (S (S (S n)))) 0.66)]; reflexivity.
Qed.

(** The base colour, whatever the rounding of the products: integer hue in
    [[0, 360]], saturation in [[40, 80]], lightness in [[30, 70]]. *)
Lemma base_ranges :
  (exists z : Z, h (baseColor level) == inject_Z z /\ (0 <= z <= 360)%Z)
  /\ (exists z : Z, s (baseColor level) == inject_Z z /\ (40 <= z <= 80)%Z)
  /\ (exists z : Z, l (baseColor level) == inject_Z z /\ (30 <= z <= 70)%Z).
Proof.
  rewrite generated_base. cbn [h s l].
  destruct (random_floor n 360 eq_refl eq_refl) as (zh & Hzh & Hbh).
  destruct (random_floor (1 + n) 40 eq_refl eq_refl) as (zs & Hzs & Hbs).
  destruct (random_floor (2 + n) 40 eq_refl eq_refl) as (zl & Hzl & Hbl).
  change (inject_Z 360) with 360 in Hzh.
  change (inject_Z 40) with 40 in Hzs, Hzl.
  rewrite Hzh, Hzs, Hzl.
  split; [|split].
  - exists zh. split; [reflexivity | exact Hbh].
  - exists (zs + 40)%Z. split; [|lia].
    rewrite inject_Z_plus. reflexivity.
  - exists (zl + 30)%Z. split; [|lia].
    rewrite inject_Z_plus. reflexivity.
Qed.

Lemma clamp_inside (x : Q) : 0 <= x <= 100 -> clamp x == x.
Proof.
  intros [H0 H1]. unfold JS.Math_min, JS.Math_max.
  rewrite (Q.max_r 0 x H0). apply Q.min_r. exact H1.
Qed.

Lemma base_bounds :
  0 <= h (baseColor level) <= 360
  /\ 40 <= s (baseColor level) <= 80
  /\ 30 <= l (baseColor level) <= 70.
Proof.
  destruct base_ranges
    as ((zh & Eh & Hh1 & Hh2) & (zs & Es & Hs1 & Hs2) & (zl & El & Hl1 & Hl2)).
  rewrite Zle_Qle in Hh1, Hs1, Hl1, Hh2, Hs2, Hl2.
  rewrite Eh, Es, El. repeat split; assumption.
Qed.

(** What each branch does to the colour: the chosen channel moves by
    [delta], without the clamp binding and without the hue wrap landing on
    the base hue; the two other channels are the base colour's. *)
Lemma perturbation :
  match branch type with
  | Hue =>
      h (diffColor level) == JS.rem (h (baseColor level) + delta difficulty) 360
      /\ (h (diffColor level) == h (baseColor level) + delta difficulty
          \/ h (diffColor level)
             == h (baseColor level) + delta difficulty - 360)
      /\ 0 <= h (diffColor level) < 360
      /\ ~ h (diffColor level) == h (baseColor level)
      /\ s (diffColor level) = s (baseColor level)
      /\ l (diffColor level) = l (baseColor level)
  | Saturation =>
      h (diffColor level) = h (baseColor level)
      /\ (s (diffColor level) == s (baseColor level) + delta difficulty
          \/ s (diffColor level) == s (baseColor level) - delta difficulty)
      /\ 0 < s (diffColor level) < 100
      /\ ~ s (diffColor level) == s (baseColor level)
      /\ l (diffColor level) = l (baseColor level)
  | Lightness =>
      h (diffColor level) = h (baseColor level)
      /\ s (diffColor level) = s (baseColor level)
      /\ (l (diffColor level) == l (baseColor level) + delta difficulty
          \/ l (diffColor level) == l (baseColor level) - delta difficulty)
      /\ 0 < l (diffColor level) < 100
      /\ ~ l (diffColor level) == l (baseColor level)
  end.
Proof.
  pose proof generated_diff as D.
  pose proof base_bounds as (Hh & Hs & Hl).
  pose proof (delta_bounds difficulty difficulty_nonneg) as Hd.
  destruct (branch type); rewrite D; cbn [h s l].
  - split; [reflexivity|].
    destruct (Qlt_le_dec (h (baseColor level) + delta difficulty) 360)
      as [Hlt | Hge].
    + rewrite JSFacts.rem_small by lra.
      repeat split; lra.
    + rewrite JSFacts.rem_wrap by lra.
      repeat split; lra.
  - destruct (JS.gtb (random (4 + n)) 0.5);
      rewrite clamp_inside by lra; repeat split; lra.
  - destruct (JS.gtb (random (4 + n)) 0.5);
      rewrite clamp_inside by lra; repeat split; lra.
Qed.

Lemma differs_true (c : Channel) :
  ~ channel c (diffColor level) == channel c (baseColor level) ->
  differs level c = true.
Proof.
  intro H. unfold differs. rewrite negb_true_iff.
  apply JSFacts.eqb_neq. intro E. apply H. symmetry. exact E.
Qed.

Lemma differs_false (c : Channel) :
  channel c (diffColor level) = channel c (baseColor level) ->
  differs level c = false.
Proof.
  intro H. unfold differs. rewrite H, negb_false_iff.
  apply Qeq_bool_iff. reflexivity.
Qed.

(** The channel on which the round differs tells the branch taken. *)
Lemma perturbed_branch : perturbed level = [branch type].
Proof.
  pose proof perturbation as P. unfold perturbed.
  destruct (branch type); cbn [filter].
  - destruct P as (_ & _ & _ & Hh & Hs & Hl).
    rewrite (differs_true Hue Hh), (differs_false Saturation Hs),
      (differs_false Lightness Hl). reflexivity.
  - destruct P as (Hh & _ & _ & Hs & Hl).
    rewrite (differs_false Hue Hh), (differs_true Saturation Hs),
      (differs_false Lightness Hl). reflexivity.
  - destruct P as (Hh & Hs & _ & _ & Hl).
    rewrite (differs_false Hue Hh), (differs_false Saturation Hs),
      (differs_true Lightness Hl). reflexivity.
Qed.

Lemma untouched_channels (c : Channel) :
  c <> branch type ->
  channel c (diffColor level) = channel c (baseColor level).
Proof.
  pose proof perturbation as P.
  destruct (branch type), c; intro Hc; try congruence; cbn [channel];
    tauto.
Qed.

End Generator.

(** *** With a random source that returns binary64 values *)

Section GeneratorDoubles.

Variable random : nat -> Q.
Hypothesis random_range : in_range random.
Hypothesis random_doubles : returns_doubles random.
Variable difficulty : Q.
Variable n : nat.

Local Abbreviation level := (fst (generateColor random difficulty n)).

Lemma random_floor_strict (m : nat) (k : Z) :
  (0 < k)%Z -> inject_Z k < 2 ^ 53 ->
  exists z : Z,
    JS.Math_floor (JS.mul (random m) (inject_Z k)) = inject_Z z
    /\ (0 <= z < k)%Z.
Proof.
  apply JSFacts.floor_product_strict.
  - apply random_range.
  - apply JSFacts.double_below_one;
      [apply random_doubles | apply random_range].
Qed.

Lemma generated_index :
  exists z : Z, diffIndex level = inject_Z z /\ (0 <= z < 25)%Z.
Proof.
  assert (F : forall m, exists z : Z,
               JS.Math_floor (JS.mul (random m) (5 * 5)) = inject_Z z
               /\ (0 <= z < 25)%Z).
  { intro m.
    destruct (random_floor_strict m 25 eq_refl eq_refl) as (z & Hz & Hb).
    exists z. split; [exact Hz | exact Hb]. }
  cbv beta iota zeta delta [generateColor bind Math_random ret].
  destruct (JS.ltb (random (S (S (S n)))) 0.33);
    [|destruct (JS.ltb (random (S (S (S n)))) 0.66)];
    cbn [fst diffIndex]; apply F.
Qed.

(** The base colour: integer hue in [[0, 360)], saturation in [[40, 80)],
    lightness in [[30, 70)]. *)
Lemma base_bounds_strict :
  0 <= h (baseColor level) < 360
  /\ 40 <= s (baseColor level) < 80
  /\ 30 <= l (baseColor level) < 70.
Proof.
  rewrite generated_base. cbn [h s l].
  destruct (random_floor_strict n 360 eq_refl eq_refl) as (zh & Hzh & Hbh).
  destruct (random_floor_strict (1 + n) 40 eq_refl eq_refl)
    as (zs & Hzs & Hbs).
  destruct (random_floor_strict (2 + n) 40 eq_refl eq_refl)
    as (zl & Hzl & Hbl).
  change (inject_Z 360) with 360 in Hzh.
  change (inject_Z 40) with 40 in Hzs, Hzl.
  rewrite Hzh, Hzs, Hzl.
  destruct Hbh as (Hh1 & Hh2). destruct Hbs as (Hs1 & Hs2).
  destruct Hbl as (Hl1 & Hl2).
  rewrite Zle_Qle in Hh1, Hs1, Hl1. rewrite Zlt_Qlt in Hh2, Hs2, Hl2.
  change (inject_Z 0) with 0 in *. change (inject_Z 360) with 360 in *.
  change (inject_Z 40) with 40 in *.
  repeat split; lra.
Qed.

End GeneratorDoubles.

(** The products are rounded before the floor: on the doubles nearest 0.3
    and 0.7 the hue is 108 and the saturation 68, where the exact products
    would give 107 and 67. *)
Example products_are_rounded :
  h (baseColor (fst (generateColor near_tenths 0 0%nat))) == 108
  /\ s (baseColor (fst (generateColor near_tenths 0 0%nat))) == 68
  /\ JS.Math_floor (double_0_3 * 360) == 107
  /\ JS.Math_floor (double_0_7 * 40) + 40 == 67.
Proof. vm_compute. repeat split; reflexivity. Qed.

Lemma level_nonneg (d : Z) : (0 <= d)%Z -> 0 <= inject_Z d.
Proof. intro H. rewrite Zle_Qle in H. exact H. Qed.

(** C2: in every round generated at a difficulty [d >= 0], whatever
    binary64 values in [[0, 1)] the random source returns, [diffIndex] is
    an integer in [[0, 25)] (the product is rounded before the floor), the two
    colours differ on exactly one of the three channels and the two other
    channels of [diffColor] are those of [baseColor], and when the hue is the
    perturbed channel the new hue is [(baseHue + delta d) % 360], that is
    [baseHue + delta d] brought back into [[0, 360)]. *)
Theorem one_channel_perturbed (random : nat -> Q) (d : Z) (n : nat) :
  in_range random -> returns_doubles random -> (0 <= d)%Z ->
  let level := fst (generateColor random (inject_Z d) n) in
  (exists z : Z, diffIndex level = inject_Z z /\ (0 <= z < 25)%Z)
  /\ (exists c : Channel,
         perturbed level = [c]
         /\ forall c' : Channel,
             c' <> c ->
             channel c' (diffColor level) = channel c' (baseColor level))
  /\ (perturbed level = [Hue] ->
      h (diffColor level)
      == JS.rem (h (baseColor level) + delta (inject_Z d)) 360
      /\ (h (diffColor level) == h (baseColor level) + delta (inject_Z d)
          \/ h (diffColor level)
             == h (baseColor level) + delta (inject_Z d) - 360)
      /\ 0 <= h (diffColor level) < 360).
Proof.
  intros Hr Hdb Hd level. apply level_nonneg in Hd.
  split; [|split].
  - apply (generated_index random Hr Hdb (inject_Z d) n).
  - exists (branch (random (3 + n)%nat)). split.
    + apply perturbed_branch; assumption.
    + intros c' Hc'. apply untouched_channels; assumption.
  - intro Hp. unfold level in Hp.
    rewrite (perturbed_branch random Hr (inject_Z d) Hd n) in Hp.
    pose proof (perturbation random Hr (inject_Z d) Hd n) as P.
    destruct (branch (random (3 + n)%nat)); try discriminate Hp.
    destruct P as (P1 & P2 & P3 & _). auto.
Qed.

Lemma cycle_in_range : in_range cycle.
Proof.
  intro n. unfold cycle.
  pose proof (Nat.mod_upper_bound (7 * n + 3) 10) as H.
  assert (Hlo : (0 <= Z.of_nat ((7 * n + 3) mod 10))%Z) by lia.
  assert (Hhi : (Z.of_nat ((7 * n + 3) mod 10) < 10)%Z) by lia.
  rewrite Zle_Qle in Hlo. rewrite Zlt_Qlt in Hhi.
  change (inject_Z 0) with 0 in Hlo. change (inject_Z 10) with 10 in Hhi.
  split.
  - apply Qle_shift_div_l; lra.
  - apply Qlt_shift_div_r; lra.
Qed.

Lemma dyadic_in_range : in_range dyadic.
Proof.
  intro n. unfold dyadic.
  pose proof (Nat.mod_upper_bound (37 * n + 19) 64) as H.
  assert (Hlo : (0 <= Z.of_nat ((37 * n + 19) mod 64))%Z) by lia.
  assert (Hhi : (Z.of_nat ((37 * n + 19) mod 64) < 64)%Z) by lia.
  rewrite Zle_Qle in Hlo. rewrite Zlt_Qlt in Hhi.
  change (inject_Z 0) with 0 in Hlo. change (inject_Z 64) with 64 in Hhi.
  split.
  - apply Qle_shift_div_l; lra.
  - apply Qlt_shift_div_r; lra.
Qed.

Lemma dyadic_doubles : returns_doubles dyadic.
Proof.
  intro n. unfold dyadic.
  pose proof (Nat.mod_upper_bound (37 * n + 19) 64) as H.
  exists (Z.of_nat ((37 * n + 19) mod 64)), (-6)%Z.
  split; [lia|]. split; [lia|]. reflexivity.
Qed.

Lemma one_channel_perturbed_witness :
  in_range dyadic /\ returns_doubles dyadic /\ (0 <= 1)%Z
  /\ exists c : Channel,
       perturbed (fst (generateColor dyadic (inject_Z 1) 0%nat)) = [c].
Proof.
  split; [exact dyadic_in_range|]. split; [exact dyadic_doubles|].
  split; [lia|].
  destruct (one_channel_perturbed dyadic 1 0 dyadic_in_range dyadic_doubles)
    as (_ & H & _).
  - lia.
  - destruct H as (c & Hc & _). exists c. exact Hc.
Defined.

(** C10: in every round generated at a difficulty [d >= 0], whatever
    binary64 values in [[0, 1)] the random source returns (the products
    are rounded before the floors), the perturbed channel of [diffColor] really
    differs from that of [baseColor]: the base saturation lies in
    [[40, 80)], the base lightness in [[30, 70)] and [0 < delta <= 15], so a
    perturbed saturation or lightness is exactly the base value plus or
    minus [delta], strictly inside [[0, 100]] (the clamp does not bind), and
    a perturbed hue is never the base hue; hence the two colours differ. *)
Theorem diffColor_differs (random : nat -> Q) (d : Z) (n : nat) :
  in_range random -> returns_doubles random -> (0 <= d)%Z ->
  let level := fst (generateColor random (inject_Z d) n) in
  let b := baseColor level in
  let c := diffColor level in
  (40 <= s b < 80 /\ 30 <= l b < 70
   /\ 0 < delta (inject_Z d) <= 15 /\ delta (inject_Z d) < 360)
  /\ match branch (random (3 + n)%nat) with
     | Hue => ~ h c == h b
     | Saturation =>
         (s c == s b + delta (inject_Z d) \/ s c == s b - delta (inject_Z d))
         /\ 0 < s c < 100 /\ ~ s c == s b
     | Lightness =>
         (l c == l b + delta (inject_Z d) \/ l c == l b - delta (inject_Z d))
         /\ 0 < l c < 100 /\ ~ l c == l b
     end
  /\ ~ (h c == h b /\ s c == s b /\ l c == l b)
  /\ c <> b.
Proof.
  intros Hr Hdb Hd level b c. apply level_nonneg in Hd.
  pose proof (perturbation random Hr (inject_Z d) Hd n) as P.
  pose proof (base_bounds_strict random Hr Hdb (inject_Z d) n)
    as (Bh & Bs & Bl).
  pose proof (delta_bounds (inject_Z d) Hd) as Dd.
  fold level in P, Bh, Bs, Bl. fold b in P, Bh, Bs, Bl. fold c in P.
  assert (N : ~ (h c == h b /\ s c == s b /\ l c == l b)).
  { destruct (branch (random (3 + n)%nat)); tauto. }
  split; [|split; [|split]].
  - repeat split; lra.
  - destruct (branch (random (3 + n)%nat)); tauto.
  - exact N.
  - intro E. apply N. rewrite E. repeat split; reflexivity.
Qed.

Lemma diffColor_differs_witness :
  in_range dyadic /\ returns_doubles dyadic /\ (0 <= 3)%Z
  /\ diffColor (fst (generateColor dyadic (inject_Z 3) 2%nat))
     <> baseColor (fst (generateColor dyadic (inject_Z 3) 2%nat)).
Proof.
  split; [exact dyadic_in_range|]. split; [exact dyadic_doubles|].
  split; [lia|].
  destruct (diffColor_differs dyadic 3 2 dyadic_in_range dyadic_doubles)
    as (_ & _ & _ & H).
  - lia.
  - exact H.
Defined.

(** ** How often each channel is chosen *)

Lemma count_interval (a b N : nat) :
  List.length
    (filter (fun k => negb (k <? a)%nat && (k <? b)%nat) (seq 0 N))
  = (Nat.min b N - Nat.min a N)%nat.
Proof.
  induction N as [|N IH].
  - cbn. lia.
  - rewrite seq_S, filter_app, length_app, IH. cbn [filter Nat.add].
    destruct (Nat.ltb_spec N a), (Nat.ltb_spec N b);
      cbn [negb andb List.length]; lia.
Qed.

Lemma override_in_range (random : nat -> Q) (n : nat) (v : Q) :
  in_range random -> 0 <= v < 1 -> in_range (override random n v).
Proof.
  intros Hr Hv m. unfold override.
  destruct (Nat.eqb m n); [exact Hv | apply Hr].
Qed.

Lemma override_at (random : nat -> Q) (n : nat) (v : Q) :
  override random n v n = v.
Proof. unfold override. rewrite Nat.eqb_refl. reflexivity. Qed.

(** Comparing the grid point [k / (100 m)] with a threshold of [a]
    hundredths. *)
Lemma ltb_grid (k m a : nat) (q : Q) :
  (0 < m)%nat ->
  q * 100 == inject_Z (Z.of_nat a) ->
  JS.ltb (inject_Z (Z.of_nat k) / inject_Z (Z.of_nat (100 * m))) q
  = (k <? a * m)%nat.
Proof.
  intros Hm Hq.
  assert (HN : 0 < inject_Z (Z.of_nat (100 * m))).
  { change 0 with (inject_Z 0). rewrite <- Zlt_Qlt. lia. }
  assert (EN : inject_Z (Z.of_nat (100 * m)) == 100 * inject_Z (Z.of_nat m)).
  { rewrite Nat2Z.inj_mul, inject_Z_mult. reflexivity. }
  assert (EA : inject_Z (Z.of_nat (a * m))
               == q * 100 * inject_Z (Z.of_nat m)).
  { rewrite Nat2Z.inj_mul, inject_Z_mult, Hq. reflexivity. }
  destruct (Nat.ltb_spec k (a * m)) as [Hlt | Hge].
  - apply JSFacts.ltb_lt. apply Qlt_shift_div_r; [exact HN|].
    apply Nat2Z.inj_lt in Hlt. rewrite Zlt_Qlt in Hlt.
    rewrite EA in Hlt. rewrite EN. lra.
  - apply JSFacts.ltb_ge. apply Qle_shift_div_l; [exact HN|].
    apply Nat2Z.inj_le in Hge. rewrite Zle_Qle in Hge.
    rewrite EA in Hge. rewrite EN. lra.
Qed.

Lemma grid_in_range (k N : nat) :
  (k < N)%nat ->
  0 <= inject_Z (Z.of_nat k) / inject_Z (Z.of_nat N) < 1.
Proof.
  intro H.
  assert (HN : 0 < inject_Z (Z.of_nat N)).
  { change 0 with (inject_Z 0). rewrite <- Zlt_Qlt. lia. }
  assert (Hk : 0 <= inject_Z (Z.of_nat k)).
  { change 0 with (inject_Z 0). rewrite <- Zle_Qle. lia. }
  apply Nat2Z.inj_lt in H. rewrite Zlt_Qlt in H.
  split.
  - apply Qle_shift_div_l; [exact HN | lra].
  - apply Qlt_shift_div_r; [exact HN | lra].
Qed.

Lemma branch_grid (k m : nat) :
  (0 < m)%nat ->
  branch (inject_Z (Z.of_nat k) / inject_Z (Z.of_nat (100 * m)))
  = if (k <? 33 * m)%nat then Hue
    else if (k <? 66 * m)%nat then Saturation
    else Lightness.
Proof.
  intro Hm. unfold branch.
  rewrite (ltb_grid k m 33 0.33 Hm) by reflexivity.
  rewrite (ltb_grid k m 66 0.66 Hm) by reflexivity.
  reflexivity.
Qed.

(** With [N = 100 m] values of the selecting draw, the rounds perturbed on
    channel [c] are those whose grid index falls in the channel's band. *)
Lemma selections_band (random : nat -> Q) (d : Q) (n m : nat) (c : Channel) :
  in_range random -> 0 <= d -> (0 < m)%nat ->
  selections random d n (100 * m) c
  = List.length
      (filter
         (fun k =>
            negb (k <? match c with
                       | Hue => 0 | Saturation => 33 * m | Lightness => 66 * m
                       end)%nat
            && (k <? match c with
                     | Hue => 33 * m | Saturation => 66 * m
                     | Lightness => 100 * m
                     end)%nat)
         (seq 0 (100 * m))).
Proof.
  intros Hr Hd Hm. unfold selections. f_equal.
  apply filter_ext_in. intros k Hk. apply in_seq in Hk.
  rewrite perturbed_branch;
    [ | apply override_in_range; [exact Hr | apply grid_in_range; lia]
      | exact Hd ].
  rewrite override_at, (branch_grid k m Hm).
  destruct c;
    destruct (Nat.ltb_spec k (33 * m)), (Nat.ltb_spec k (66 * m));
    try lia; cbn [Channel_eqb negb andb];
    try (destruct (Nat.ltb_spec k 0); [lia|]);
    try (destruct (Nat.ltb_spec k (100 * m)); [|lia]);
    reflexivity.
Qed.

(** C3 (as the code has it): the channel is chosen by comparing one draw
    with the thresholds 0.33 and 0.66: the hue is perturbed exactly when
    the draw is below 0.33, the saturation exactly when it is in
    [[0.33, 0.66)], the lightness exactly when it is 0.66 or more.  So of
    [100 m] equally likely values of that draw [33 m] perturb the hue,
    [33 m] the saturation and [34 m] the lightness. *)
Theorem channel_choice_distribution
    (random : nat -> Q) (d : Z) (n m : nat) :
  in_range random -> (0 <= d)%Z -> (0 < m)%nat ->
  (perturbed (fst (generateColor random (inject_Z d) n)) = [Hue]
   <-> random (3 + n)%nat < 0.33)
  /\ (perturbed (fst (generateColor random (inject_Z d) n)) = [Saturation]
      <-> 0.33 <= random (3 + n)%nat < 0.66)
  /\ (perturbed (fst (generateColor random (inject_Z d) n)) = [Lightness]
      <-> 0.66 <= random (3 + n)%nat)
  /\ selections random (inject_Z d) n (100 * m) Hue = (33 * m)%nat
  /\ selections random (inject_Z d) n (100 * m) Saturation = (33 * m)%nat
  /\ selections random (inject_Z d) n (100 * m) Lightness = (34 * m)%nat.
Proof.
  intros Hr Hd Hm. apply level_nonneg in Hd.
  rewrite (perturbed_branch random Hr (inject_Z d) Hd n).
  rewrite !selections_band by assumption.
  rewrite !count_interval.
  unfold branch.
  destruct (JS.ltb (random (3 + n)%nat) 0.33) eqn:E1;
    [apply JSFacts.ltb_lt in E1
    | apply JSFacts.ltb_ge in E1;
      destruct (JS.ltb (random (3 + n)%nat) 0.66) eqn:E2;
      [apply JSFacts.ltb_lt in E2 | apply JSFacts.ltb_ge in E2]];
    (split; [split; intro H; [try discriminate H; lra
                             | try reflexivity; exfalso; lra]|]);
    (split; [split; intro H; [try discriminate H; lra
                             | try reflexivity; exfalso; lra]|]);
    (split; [split; intro H; [try discriminate H; lra
                             | try reflexivity; exfalso; lra]|]);
    lia.
Qed.

Lemma channel_choice_distribution_witness :
  in_range cycle /\ (0 <= 0)%Z /\ (0 < 3)%nat
  /\ (perturbed (fst (generateColor cycle (inject_Z 0) 0%nat)) = [Saturation]
      <-> 0.33 <= cycle 3 < 0.66)
  /\ selections cycle (inject_Z 0) 0 (100 * 3) Lightness = (34 * 3)%nat.
Proof.
  split; [exact cycle_in_range | split; [lia | split; [lia|]]].
  destruct (channel_choice_distribution cycle 0 0 3 cycle_in_range)
    as (_ & H2 & _ & _ & _ & H6); [lia | lia |].
  split; [exact H2 | exact H6].
Defined.

(** C3 (as stated) fails: of 300 equally likely values of the selecting
    draw, 99 perturb the hue, 99 the saturation and 102 the lightness, not
    100 each. *)
Lemma channel_choice_not_uniform :
  selections cycle (inject_Z 0) 0 (3 * 100) Hue = 99%nat
  /\ selections cycle (inject_Z 0) 0 (3 * 100) Saturation = 99%nat
  /\ selections cycle (inject_Z 0) 0 (3 * 100) Lightness = 102%nat
  /\ ~ chosen_with_equal_probability.
Proof.
  assert (E : selections cycle (inject_Z 0) 0 (3 * 100) Hue = 99%nat)
    by (vm_compute; reflexivity).
  split; [exact E|].
  split; [vm_compute; reflexivity|].
  split; [vm_compute; reflexivity|].
  intro H.
  specialize (H cycle 0%Z 0%nat 100%nat Hue cycle_in_range).
  rewrite E in H. assert (A : 99%nat = 100%nat) by (apply H; lia).
  discriminate A.
Qed.

(** ** The session state machine *)

Section SessionFacts.

Variable random : nat -> Q.

Lemma startGame_fields (st : Session) :
  startGame random st
  = mkSession PLAYING 0 60
      (Some (fst (generateColor random 0 (drawn st)))) None
      (timerRef st) (confetti st)
      (snd (generateColor random 0 (drawn st))).
Proof.
  unfold startGame. destruct (generateColor random 0 (drawn st)).
  reflexivity.
Qed.

Lemma click_correct_fields (index : Q) (st : Session) (level : LevelData) :
  gameState st = PLAYING -> levelData st = Some level ->
  index == diffIndex level ->
  handleBlockClick random index st
  = mkSession PLAYING (score st + 1) (JS.Math_min 60 (timeLeft st + 2))
      (Some (fst (generateColor random (score st + 1) (drawn st))))
      (Some (diffMetric level)) (timerRef st) (confetti st)
      (snd (generateColor random (score st + 1) (drawn st))).
Proof.
  intros Hg Hl Hi. unfold handleBlockClick. rewrite Hg, Hl.
  apply JSFacts.eqb_eq in Hi. rewrite Hi.
  destruct (generateColor random (score st + 1) (drawn st)).
  reflexivity.
Qed.

Lemma click_wrong_fields (index : Q) (st : Session) (level : LevelData) :
  gameState st = PLAYING -> levelData st = Some level ->
  ~ index == diffIndex level ->
  handleBlockClick random index st
  = mkSession PLAYING (score st) (JS.Math_max 0 (timeLeft st - 5))
      (levelData st) (lastDiff st) (timerRef st) (confetti st) (drawn st).
Proof.
  intros Hg Hl Hi. unfold handleBlockClick. rewrite Hg, Hl.
  apply JSFacts.eqb_neq in Hi. rewrite Hi. reflexivity.
Qed.

Lemma click_ignored (index : Q) (st : Session) :
  gameState st <> PLAYING \/ levelData st = None ->
  handleBlockClick random index st = st.
Proof.
  intros [Hg | Hl]; unfold handleBlockClick.
  - destruct (gameState st); try reflexivity. congruence.
  - rewrite Hl. destruct (gameState st); reflexivity.
Qed.

(** After any event handled to completion, an interval is live exactly
    when the game is being played. *)
Lemma timer_follows_state (e : Event) (st st' : Session) :
  step random e st = Some st' ->
  (timerRef st' = true <-> gameState st' = PLAYING).
Proof.
  unfold step. destruct (deliverable e st); [|discriminate].
  intro H. injection H as <-. cbn [timerRef gameState timerEffect].
  destruct (gameState (handle random e st)); split; congruence.
Qed.

Lemma timerEffect_stopped (st : Session) :
  gameState st <> PLAYING -> timerRef st = false -> timerEffect st = st.
Proof.
  intros Hg Ht. unfold timerEffect. destruct st as [g sc tl lv ld tr cf dr].
  cbn in *. subst tr. destruct g; try reflexivity. congruence.
Qed.

(** Only [Start] leaves a state in which the game is not being played. *)
Lemma stays_stopped (e : Event) (st st' : Session) :
  gameState st <> PLAYING -> timerRef st = false -> e <> Start ->
  step random e st = Some st' ->
  gameState st' <> PLAYING /\ timerRef st' = false.
Proof.
  intros Hg Ht He. unfold step.
  destruct e; cbn [deliverable handle]; try congruence.
  - intro H. injection H as <-.
    rewrite click_ignored by (left; exact Hg).
    rewrite (timerEffect_stopped st Hg Ht). split; assumption.
  - rewrite Ht. discriminate.
  - intro H. injection H as <-. cbn. split; [discriminate | reflexivity].
Qed.

Lemma no_tick_while_stopped (es : list Event) (st : Session) :
  gameState st <> PLAYING -> timerRef st = false ->
  ~ In Start es -> In Tick es ->
  run random es st = None.
Proof.
  revert st. induction es as [|e es IH]; intros st Hg Ht Hs Hin.
  - destruct Hin.
  - cbn [run]. destruct (step random e st) as [st'|] eqn:E;
      [|reflexivity].
    assert (He : e <> Start) by (intro; subst; apply Hs; left; reflexivity).
    destruct (stays_stopped e st st' Hg Ht He E) as [Hg' Ht'].
    apply IH; try assumption.
    + intro HS. apply Hs. right. exact HS.
    + destruct Hin as [-> | Hin]; [|exact Hin].
      unfold step in E. cbn [deliverable] in E. rewrite Ht in E.
      discriminate.
Qed.

Lemma tick_expired (st : Session) :
  timeLeft st <= 1 ->
  timerCallback st
  = mkSession GAMEOVER (score st) 0 (levelData st) (lastDiff st)
      (timerRef st) (S (confetti st)) (drawn st).
Proof.
  intro H. unfold timerCallback.
  apply JSFacts.leb_le in H. rewrite H. reflexivity.
Qed.

Lemma tick_running (st : Session) :
  1 < timeLeft st ->
  timerCallback st
  = mkSession (gameState st) (score st) (timeLeft st - 1)
      (levelData st) (lastDiff st)
      (timerRef st) (confetti st) (drawn st).
Proof.
  intro H. unfold timerCallback.
  apply JSFacts.leb_gt in H. rewrite H. reflexivity.
Qed.

End SessionFacts.

(** C4: a click on the odd cell while playing adds exactly 1 to the score,
    sets [timeLeft] to [min(60, timeLeft + 2)], stores the feedback of the
    round just solved in [lastDiff], generates the next round at a difficulty
    equal to the incremented score, and leaves the game playing (the
    interval stays live, no confetti). *)
Theorem correct_click
    (random : nat -> Q) (index : Q) (st : Session) (level : LevelData) :
  gameState st = PLAYING -> levelData st = Some level ->
  index == diffIndex level ->
  exists st' : Session,
    step random (CellClicked index) st = Some st'
    /\ score st' = score st + 1
    /\ timeLeft st' = Qmin 60 (timeLeft st + 2)
    /\ lastDiff st' = Some (diffMetric level)
    /\ levelData st'
       = Some (fst (generateColor random (score st') (drawn st)))
    /\ gameState st' = PLAYING
    /\ timerRef st' = true
    /\ confetti st' = confetti st.
Proof.
  intros Hg Hl Hi. eexists. split.
  - unfold step. cbn [deliverable handle].
    rewrite (click_correct_fields random index st level Hg Hl Hi).
    reflexivity.
  - cbn. repeat split; reflexivity.
Qed.

Lemma correct_click_witness :
  gameState opening = PLAYING /\ levelData opening = Some opening_level
  /\ 20 == diffIndex opening_level
  /\ exists st' : Session,
       step cycle (CellClicked 20) opening = Some st'
       /\ score st' == 1 /\ timeLeft st' == 60.
Proof.
  split; [reflexivity | split; [reflexivity | split; [reflexivity|]]].
  destruct (correct_click cycle 20 opening opening_level)
    as (st' & Hs & Hsc & Htl & _); try reflexivity.
  exists st'. split; [exact Hs|]. rewrite Hsc, Htl.
  split; vm_compute; reflexivity.
Defined.

(** C5: a click on any other cell while playing sets [timeLeft] to
    [max(0, timeLeft - 5)] and changes nothing else: score, round, feedback
    and state are as before.  Even when the penalty brings [timeLeft] to 0
    the game is still playing after the click; it ends at the next tick. *)
Theorem wrong_click
    (random : nat -> Q) (index : Q) (st : Session) (level : LevelData) :
  gameState st = PLAYING -> levelData st = Some level ->
  ~ index == diffIndex level ->
  exists st' : Session,
    step random (CellClicked index) st = Some st'
    /\ timeLeft st' = Qmax 0 (timeLeft st - 5)
    /\ score st' = score st
    /\ levelData st' = levelData st
    /\ lastDiff st' = lastDiff st
    /\ gameState st' = PLAYING
    /\ confetti st' = confetti st
    /\ drawn st' = drawn st
    /\ (timeLeft st <= 5 ->
        timeLeft st' == 0
        /\ exists st'' : Session,
             step random Tick st' = Some st''
             /\ gameState st'' = GAMEOVER /\ timeLeft st'' = 0).
Proof.
  intros Hg Hl Hi. eexists. split.
  - unfold step. cbn [deliverable handle].
    rewrite (click_wrong_fields random index st level Hg Hl Hi).
    reflexivity.
  - cbn [timerEffect timeLeft score levelData lastDiff gameState confetti
         drawn].
    repeat (split; [reflexivity|]).
    intro Ht.
    assert (E : Qmax 0 (timeLeft st - 5) == 0) by (apply Q.max_l; lra).
    split; [exact E|].
    eexists. split.
    + unfold step. cbn [deliverable timerRef timerEffect gameState].
      reflexivity.
    + cbn [handle]. rewrite tick_expired by (cbn; rewrite E; lra).
      split; reflexivity.
Qed.

Lemma wrong_click_witness :
  gameState opening = PLAYING /\ levelData opening = Some opening_level
  /\ ~ 7 == diffIndex opening_level
  /\ exists st' : Session,
       step cycle (CellClicked 7) opening = Some st'
       /\ timeLeft st' == 55 /\ score st' = score opening.
Proof.
  assert (N : ~ 7 == diffIndex opening_level)
    by (vm_compute; discriminate).
  split; [reflexivity | split; [reflexivity | split; [exact N|]]].
  destruct (wrong_click cycle 7 opening opening_level)
    as (st' & Hs & Htl & Hsc & _); [reflexivity | reflexivity | exact N |].
  exists st'. split; [exact Hs|]. rewrite Htl.
  split; [vm_compute; reflexivity | exact Hsc].
Defined.

(** C6: a click delivered while the game is not being played (in [START] or
    in [GAMEOVER]) is a silent no-op: the handler returns normally and every
    component of the session is as before. *)
Theorem click_outside_play (random : nat -> Q) (index : Q) (st : Session) :
  gameState st <> PLAYING ->
  handleBlockClick random index st = st
  /\ exists st' : Session,
       step random (CellClicked index) st = Some st'
       /\ gameState st' = gameState st
       /\ score st' = score st
       /\ timeLeft st' = timeLeft st
       /\ levelData st' = levelData st
       /\ lastDiff st' = lastDiff st
       /\ confetti st' = confetti st
       /\ drawn st' = drawn st
       /\ timerRef st' = false
       /\ (timerRef st = false -> st' = st).
Proof.
  intro Hg.
  assert (E : handleBlockClick random index st = st)
    by (apply click_ignored; left; exact Hg).
  split; [exact E|].
  eexists. split.
  - unfold step. cbn [deliverable handle]. rewrite E. reflexivity.
  - cbn [timerEffect timeLeft score levelData lastDiff gameState confetti
         drawn timerRef].
    repeat (split; [reflexivity|]).
    split.
    + destruct (gameState st); try reflexivity. congruence.
    + intro Ht. apply timerEffect_stopped; assumption.
Qed.

Lemma click_outside_play_witness :
  gameState ended <> PLAYING
  /\ handleBlockClick cycle 20 ended = ended
  /\ handleBlockClick cycle 4 initial = initial.
Proof.
  split; [discriminate | split].
  - apply (click_outside_play cycle 20 ended). discriminate.
  - apply (click_outside_play cycle 4 initial). discriminate.
Defined.

(** C7: a tick while playing takes 1 off [timeLeft]; but when [timeLeft] is
    at most 1 before the tick, it sets [timeLeft] to 0, ends the game and
    fires the confetti once.  The interval is then cleared: no tick is
    delivered any more, whatever clicks and menu visits follow, until the
    game is started again. *)
Theorem tick_transition (random : nat -> Q) (st : Session) :
  gameState st = PLAYING -> timerRef st = true ->
  exists st' : Session,
    step random Tick st = Some st'
    /\ score st' = score st
    /\ levelData st' = levelData st
    /\ lastDiff st' = lastDiff st
    /\ (1 < timeLeft st ->
        timeLeft st' = timeLeft st - 1
        /\ gameState st' = PLAYING
        /\ confetti st' = confetti st
        /\ timerRef st' = true)
    /\ (timeLeft st <= 1 ->
        timeLeft st' = 0
        /\ gameState st' = GAMEOVER
        /\ confetti st' = S (confetti st)
        /\ timerRef st' = false
        /\ step random Tick st' = None
        /\ forall es : list Event,
             ~ In Start es -> In Tick es -> run random es st' = None).
Proof.
  intros Hg Ht.
  exists (timerEffect (timerCallback st)).
  split; [unfold step; cbn [deliverable handle]; rewrite Ht; reflexivity|].
  destruct (Qlt_le_dec 1 (timeLeft st)) as [Hgt | Hle].
  - rewrite (tick_running st Hgt). cbn. rewrite Hg.
    repeat (split; [reflexivity|]). split.
    + intros _. repeat split; reflexivity.
    + intro H. lra.
  - rewrite (tick_expired st Hle). cbn.
    repeat (split; [reflexivity|]). split.
    + intro H. lra.
    + intros _. repeat (split; [reflexivity|]).
      intros es Hs Hin. apply no_tick_while_stopped; try assumption.
      * cbn. discriminate.
      * reflexivity.
Qed.

Lemma tick_transition_witness :
  gameState opening = PLAYING /\ timerRef opening = true
  /\ exists st' : Session,
       step cycle Tick opening = Some st' /\ timeLeft st' == 59.
Proof.
  split; [reflexivity | split; [reflexivity|]].
  destruct (tick_transition cycle opening) as (st' & Hs & _ & _ & _ & Hr & _);
    [reflexivity | reflexivity |].
  exists st'. split; [exact Hs|].
  destruct Hr as (Htl & _); [vm_compute; reflexivity|].
  rewrite Htl. vm_compute. reflexivity.
Defined.

(** ** The session invariant *)

Lemma integer_min (x y : Q) :
  (exists z : Z, x == inject_Z z) -> (exists z : Z, y == inject_Z z) ->
  exists z : Z, Qmin x y == inject_Z z.
Proof.
  intros [zx Hx] [zy Hy].
  destruct (Q.min_spec x y) as [[_ E] | [_ E]];
    [exists zx | exists zy]; rewrite E; assumption.
Qed.

Lemma integer_max (x y : Q) :
  (exists z : Z, x == inject_Z z) -> (exists z : Z, y == inject_Z z) ->
  exists z : Z, Qmax x y == inject_Z z.
Proof.
  intros [zx Hx] [zy Hy].
  destruct (Q.max_spec x y) as [[_ E] | [_ E]];
    [exists zy | exists zx]; rewrite E; assumption.
Qed.

Lemma integer_shift (x : Q) (k : Z) :
  (exists z : Z, x == inject_Z z) ->
  exists z : Z, x + inject_Z k == inject_Z z.
Proof.
  intros [z Hz]. exists (z + k)%Z. rewrite inject_Z_plus, Hz. reflexivity.
Qed.

Lemma inv_timerEffect (st : Session) :
  session_inv st -> session_inv (timerEffect st).
Proof. intro H. exact H. Qed.

Lemma start_establishes (random : nat -> Q) (st : Session) :
  score (startGame random st) = 0
  /\ timeLeft (startGame random st) = 60
  /\ gameState (startGame random st) = PLAYING
  /\ lastDiff (startGame random st) = None
  /\ session_inv (startGame random st).
Proof.
  rewrite startGame_fields. cbn.
  repeat (split; [reflexivity|]).
  unfold session_inv. cbn. repeat split; try lra.
  exists 60%Z. reflexivity.
Qed.

Lemma handle_preserves_inv (random : nat -> Q) (e : Event) (st : Session) :
  session_inv st -> session_inv (handle random e st).
Proof.
  intros Hinv. pose proof Hinv as (Hs & Ht & Hz).
  destruct e as [|index| |]; cbn [handle].
  - apply start_establishes.
  - destruct (gameState st) eqn:Hg;
      try (rewrite click_ignored
             by (left; rewrite Hg; discriminate);
           exact Hinv).
    destruct (levelData st) as [level|] eqn:Hl;
      [|rewrite click_ignored by (right; exact Hl); exact Hinv].
    destruct (Qeq_dec index (diffIndex level)) as [Hi | Hi].
    + rewrite (click_correct_fields random index st level Hg Hl Hi).
      unfold session_inv, JS.Math_min. cbn [score timeLeft].
      split; [lra|]. split.
      * destruct (Q.min_spec 60 (timeLeft st + 2)) as [[L E] | [L E]];
          rewrite E; lra.
      * apply integer_min; [exists 60%Z; reflexivity|].
        apply (integer_shift (timeLeft st) 2 Hz).
    + rewrite (click_wrong_fields random index st level Hg Hl Hi).
      unfold session_inv, JS.Math_max. cbn [score timeLeft].
      split; [exact Hs|]. split.
      * destruct (Q.max_spec 0 (timeLeft st - 5)) as [[L E] | [L E]];
          rewrite E; lra.
      * apply integer_max; [exists 0%Z; reflexivity|].
        apply (integer_shift (timeLeft st) (-5) Hz).
  - destruct (Qlt_le_dec 1 (timeLeft st)) as [Hgt | Hle].
    + rewrite (tick_running st Hgt). unfold session_inv. cbn [score timeLeft].
      split; [exact Hs|]. split; [lra|].
      apply (integer_shift (timeLeft st) (-1) Hz).
    + rewrite (tick_expired st Hle). unfold session_inv. cbn [score timeLeft].
      split; [exact Hs|]. split; [lra|]. exists 0%Z. reflexivity.
  - unfold session_inv. cbn. repeat split; try assumption; lra.
Qed.

Lemma step_preserves_inv
    (random : nat -> Q) (e : Event) (st st' : Session) :
  session_inv st -> step random e st = Some st' -> session_inv st'.
Proof.
  intros Hinv. unfold step. destruct (deliverable e st); [|discriminate].
  intro H. injection H as <-.
  apply inv_timerEffect, handle_preserves_inv, Hinv.
Qed.

Lemma initial_inv : session_inv initial.
Proof.
  unfold session_inv, initial. cbn. repeat split; try lra.
  exists 60%Z. reflexivity.
Qed.

Lemma reachable_inv (random : nat -> Q) (st : Session) :
  reachable random st -> session_inv st.
Proof.
  induction 1 as [|e st st' _ IH Hstep].
  - exact initial_inv.
  - exact (step_preserves_inv random e st st' IH Hstep).
Qed.

(** C8: [0 <= score] and [0 <= timeLeft <= 60], with [timeLeft] an integer,
    hold at all times: in every session reached from the initial one, and
    again after any event handled there; [Start] sets the score to 0 and
    [timeLeft] to 60, and clicks and ticks keep the invariant. *)
Theorem session_invariant (random : nat -> Q) (st : Session) :
  reachable random st ->
  session_inv st
  /\ forall (e : Event) (st' : Session),
       step random e st = Some st' ->
       session_inv st'
       /\ (e = Start -> score st' = 0 /\ timeLeft st' = 60).
Proof.
  intro Hr. pose proof (reachable_inv random st Hr) as Hinv.
  split; [exact Hinv|].
  intros e st' Hstep. split.
  - exact (step_preserves_inv random e st st' Hinv Hstep).
  - intros ->. unfold step in Hstep. cbn [deliverable handle] in Hstep.
    injection Hstep as <-.
    destruct (start_establishes random st) as (Hs & Ht & _).
    cbn [timerEffect score timeLeft]. split; assumption.
Qed.

Lemma opening_reachable : reachable cycle opening.
Proof.
  apply (reachable_step cycle Start initial opening).
  - apply reachable_initial.
  - reflexivity.
Qed.

Lemma session_invariant_witness :
  reachable cycle opening /\ session_inv opening.
Proof.
  split; [exact opening_reachable|].
  apply (session_invariant cycle opening opening_reachable).
Defined.

(** ** The feedback shown after a correct click *)

Lemma handle_preserves_tracked
    (random : nat -> Q) (e : Event) (st : Session) :
  tracked random st -> tracked random (handle random e st).
Proof.
  intros Htr. pose proof Htr as ((z & Hz0 & Hz) & Hlv).
  destruct e as [|index| |]; cbn [handle].
  - rewrite startGame_fields. split; cbn [score levelData].
    + exists 0%Z. split; [lia | reflexivity].
    + intros level E. injection E as <-.
      exists 0%Z, 0, (drawn st).
      split; [lia | split; reflexivity].
  - destruct (gameState st) eqn:Hg;
      try (rewrite click_ignored
             by (left; rewrite Hg; discriminate);
           exact Htr).
    destruct (levelData st) as [level|] eqn:Hl;
      [|rewrite click_ignored by (right; exact Hl); exact Htr].
    destruct (Qeq_dec index (diffIndex level)) as [Hi | Hi].
    + rewrite (click_correct_fields random index st level Hg Hl Hi).
      assert (Hn : score st + 1 == inject_Z (z + 1)).
      { rewrite inject_Z_plus, Hz. reflexivity. }
      split; cbn [score levelData].
      * exists (z + 1)%Z. split; [lia | exact Hn].
      * intros level' E. injection E as <-.
        exists (z + 1)%Z, (score st + 1), (drawn st).
        split; [lia | split; [exact Hn | reflexivity]].
    + rewrite (click_wrong_fields random index st level Hg Hl Hi).
      split; cbn [score levelData].
      * exists z. split; assumption.
      * rewrite Hl. apply Hlv.
  - unfold timerCallback.
    destruct (JS.leb (timeLeft st) 1); exact Htr.
  - exact Htr.
Qed.

Lemma reachable_tracked (random : nat -> Q) (st : Session) :
  reachable random st -> tracked random st.
Proof.
  induction 1 as [|e st st' _ IH Hstep].
  - split; cbn.
    + exists 0%Z. split; [lia | reflexivity].
    + intros level E. discriminate E.
  - unfold step in Hstep. destruct (deliverable e st); [|discriminate].
    injection Hstep as <-.
    exact (handle_preserves_tracked random e st IH).
Qed.

(** The L1 distance of a generated round is [delta], or [360 - delta] when
    the hue wrapped; in both cases a non-negative multiple of 1/4. *)
Lemma generated_L1 (random : nat -> Q) (level : LevelData) :
  in_range random -> generated random level ->
  0 <= L1 level /\ exists k : Z, L1 level * 4 == inject_Z k.
Proof.
  intros Hr (d & q & n & Hd & Hq & ->).
  assert (Hq0 : 0 <= q) by (rewrite Hq; apply level_nonneg; exact Hd).
  pose proof (perturbation random Hr q Hq0 n) as P.
  pose proof (delta_bounds q Hq0) as Db.
  destruct (delta_quarters d) as [k Hk].
  rewrite <- (delta_comp q (inject_Z d) Hq) in Hk.
  set (level := fst (generateColor random q n)) in *.
  assert (C : L1 level == delta q \/ L1 level == 360 - delta q).
  { unfold L1.
    destruct (branch (random (3 + n)%nat)).
    - destruct P as (_ & [E | E] & _ & _ & -> & ->);
        [left | right];
        repeat (apply Qabs_case; intro); lra.
    - destruct P as (-> & [E | E] & _ & _ & ->); left;
        repeat (apply Qabs_case; intro); lra.
    - destruct P as (-> & -> & [E | E] & _ & _); left;
        repeat (apply Qabs_case; intro); lra. }
  destruct C as [C | C].
  - split; [rewrite C; lra|]. exists k. rewrite C. exact Hk.
  - split; [rewrite C; lra|]. exists (1440 - k)%Z.
    unfold Zminus. rewrite C, inject_Z_plus, inject_Z_opp, <- Hk.
    change (inject_Z 1440) with 1440. ring.
Qed.

(** C9: for every round the session holds, the feedback stored by a correct
    click shows exactly the plain L1 distance of the raw channel values of
    the two colours (rounding to two decimals changes nothing, and no
    shortest-arc correction is made on the hue), next to the HSL strings of
    the two colours. *)
Theorem feedback_is_L1
    (random : nat -> Q) (st : Session) (level : LevelData) :
  in_range random -> reachable random st ->
  gameState st = PLAYING -> levelData st = Some level ->
  exists fb : LastDiff,
    lastDiff (handleBlockClick random (diffIndex level) st) = Some fb
    /\ shown fb == L1 level
    /\ shown fb
       == Qabs (h (baseColor level) - h (diffColor level))
          + Qabs (s (baseColor level) - s (diffColor level))
          + Qabs (l (baseColor level) - l (diffColor level))
    /\ base fb = colorToCss (baseColor level)
    /\ diff fb = colorToCss (diffColor level).
Proof.
  intros Hr Hreach Hg Hl.
  exists (diffMetric level). split.
  - rewrite (click_correct_fields random (diffIndex level) st level Hg Hl)
      by reflexivity.
    reflexivity.
  - destruct (reachable_tracked random st Hreach) as (_ & Hgen).
    destruct (generated_L1 random level Hr (Hgen level Hl)) as (H0 & k & Hk).
    assert (E : shown (diffMetric level) == L1 level).
    { exact (JSFacts.toFixed2_quarters (L1 level) k H0 Hk). }
    repeat split; try reflexivity; exact E.
Qed.

Lemma feedback_is_L1_witness :
  in_range cycle /\ reachable cycle opening
  /\ gameState opening = PLAYING /\ levelData opening = Some opening_level
  /\ exists fb : LastDiff,
       lastDiff (handleBlockClick cycle (diffIndex opening_level) opening)
       = Some fb
       /\ shown fb == L1 opening_level.
Proof.
  split; [exact cycle_in_range|].
  split; [exact opening_reachable|].
  split; [reflexivity|]. split; [reflexivity|].
  destruct (feedback_is_L1 cycle opening opening_level cycle_in_range
              opening_reachable eq_refl eq_refl) as (fb & H1 & H2 & _).
  exists fb. split; assumption.
Defined.

(** The distance is taken on the raw hue values: a hue of 359 perturbed by
    15 wraps to 14, and the feedback shows 345, not 15. *)
Example feedback_on_hue_wrap :
  let level := fst (generateColor high_hue 0 0%nat) in
  h (baseColor level) == 359 /\ h (diffColor level) == 14
  /\ shown (diffMetric level) == 345
  /\ base (diffMetric level) = "hsl(359, 40%, 30%)"%string
  /\ diff (diffMetric level) = "hsl(14, 40%, 30%)"%string.
Proof. vm_compute. repeat split; reflexivity. Qed.

(** The scenario of the specification on the source [cycle]: a start, a
    correct click, a wrong click, then 55 ticks. *)
Example scenario :
  match run cycle (Start :: CellClicked 20 :: CellClicked 7
                     :: repeat Tick 55) initial with
  | Some st =>
      gameState st = GAMEOVER /\ score st == 1 /\ timeLeft st == 0
      /\ confetti st = 1%nat /\ timerRef st = false
  | None => False
  end.
Proof. vm_compute. repeat split; reflexivity. Qed.

(** * Part III: further properties of the engine and of what it renders *)

(** ** Invariants of the reachable sessions *)

Lemma coherent_initial (random : nat -> Q) : coherent random initial.
Proof.
  unfold coherent, settled, initial. cbn.
  split; [split; discriminate|].
  split; [discriminate|]. split; [discriminate|].
  split; [discriminate|]. split; [reflexivity | discriminate].
Qed.

(** The effect only touches [timerRef]. *)
Lemma coherent_timerEffect (random : nat -> Q) (st : Session) :
  settled random st -> coherent random (timerEffect st).
Proof.
  intros H. split; [|exact H].
  cbn. destruct (gameState st); split; congruence.
Qed.

Lemma settled_handle (random : nat -> Q) (e : Event) (st : Session) :
  tracked random st -> coherent random st ->
  deliverable e st = true ->
  settled random (handle random e st).
Proof.
  intros ((z & Hz0 & Hz) & _) Hc Hdel.
  pose proof Hc as (Htimer & Hs).
  pose proof Hs as (Hround & Hover & Hlevel & Hnone & Hsome).
  destruct e as [|index| |]; cbn [handle].
  - rewrite startGame_fields. unfold settled. cbn.
    split; [discriminate|]. split; [discriminate|].
    split; [|split; [reflexivity | discriminate]].
    intros level E. injection E as <-. exists (drawn st). reflexivity.
  - destruct (gameState st) eqn:Hg;
      try (rewrite click_ignored
             by (left; rewrite Hg; discriminate);
           exact Hs).
    destruct (levelData st) as [level|] eqn:Hl;
      [|rewrite click_ignored by (right; exact Hl); exact Hs].
    destruct (Qeq_dec index (diffIndex level)) as [Hi | Hi].
    + rewrite (click_correct_fields random index st level Hg Hl Hi).
      unfold settled. cbn.
      split; [discriminate|]. split; [discriminate|].
      split; [|split; [discriminate|]].
      * intros level' E. injection E as <-. exists (drawn st). reflexivity.
      * intros fb E. injection E as <-.
        destruct (Hlevel level eq_refl) as (n & ->).
        exists (score st), n, z. repeat split; assumption.
    + rewrite (click_wrong_fields random index st level Hg Hl Hi).
      unfold settled. cbn.
      split; [intros _; rewrite Hl; discriminate|].
      split; [discriminate|].
      split; [rewrite Hl; exact Hlevel|].
      split; assumption.
  - cbn [deliverable] in Hdel.
    assert (Hg : gameState st = PLAYING) by (apply Htimer; exact Hdel).
    destruct (Qlt_le_dec 1 (timeLeft st)) as [Hgt | Hle].
    + rewrite (tick_running st Hgt). unfold settled. cbn.
      split; [exact Hround|].
      split; [rewrite Hg; discriminate|].
      split; [exact Hlevel|]. split; assumption.
    + rewrite (tick_expired st Hle). unfold settled. cbn.
      split; [discriminate|].
      split; [intros _; split; [reflexivity | lia]|].
      split; [exact Hlevel|]. split; assumption.
  - unfold mainMenu, settled. cbn.
    split; [discriminate|]. split; [discriminate|].
    split; [exact Hlevel|]. split; assumption.
Qed.

Lemma reachable_coherent (random : nat -> Q) (st : Session) :
  reachable random st -> coherent random st.
Proof.
  induction 1 as [|e st st' Hr IH Hstep].
  - apply coherent_initial.
  - unfold step in Hstep.
    destruct (deliverable e st) eqn:Hdel; [|discriminate].
    injection Hstep as <-.
    apply coherent_timerEffect, settled_handle;
      [apply reachable_tracked; exact Hr | exact IH | exact Hdel].
Qed.

Lemma run_reachable (random : nat -> Q) (es : list Event) (st st' : Session) :
  reachable random st -> run random es st = Some st' -> reachable random st'.
Proof.
  revert st. induction es as [|e es IH]; intros st Hr Hrun; cbn [run] in Hrun.
  - injection Hrun as <-. exact Hr.
  - destruct (step random e st) as [st1|] eqn:E; [|discriminate].
    apply (IH st1); [|exact Hrun].
    exact (reachable_step random e st st1 Hr E).
Qed.

Lemma timed_out_reachable : reachable cycle timed_out.
Proof.
  apply (run_reachable cycle (Start :: repeat Tick 60) initial).
  - apply reachable_initial.
  - vm_compute. reflexivity.
Qed.

Lemma timed_out_over : gameState timed_out = GAMEOVER.
Proof. vm_compute. reflexivity. Qed.

(** X2: the game-over state is only ever entered on a timeout: in every
    reachable session that is over, [timeLeft] is 0, the interval is
    cleared and the confetti have been fired. *)
Theorem game_over_means_time_is_up (random : nat -> Q) (st : Session) :
  reachable random st -> gameState st = GAMEOVER ->
  timeLeft st = 0 /\ timerRef st = false /\ (1 <= confetti st)%nat.
Proof.
  intros Hr Hg.
  destruct (reachable_coherent random st Hr) as (Ht & _ & Ho & _).
  destruct (Ho Hg) as (H0 & Hc).
  split; [exact H0|]. split; [|exact Hc].
  destruct (timerRef st); [|reflexivity].
  assert (E : gameState st = PLAYING) by (apply Ht; reflexivity).
  congruence.
Qed.

Lemma game_over_means_time_is_up_witness :
  reachable cycle timed_out /\ gameState timed_out = GAMEOVER
  /\ timeLeft timed_out = 0.
Proof.
  split; [exact timed_out_reachable|]. split; [exact timed_out_over|].
  apply (game_over_means_time_is_up cycle timed_out timed_out_reachable).
  exact timed_out_over.
Defined.

Lemma playing_round_generated (random : nat -> Q) (st : Session) :
  reachable random st -> gameState st = PLAYING ->
  exists level : LevelData,
    levelData st = Some level /\ generated random level.
Proof.
  intros Hr Hg.
  destruct (reachable_coherent random st Hr) as (_ & Hround & _).
  destruct (reachable_tracked random st Hr) as (_ & Hgen).
  destruct (levelData st) as [level|] eqn:E.
  - exists level. split; [reflexivity | apply Hgen; reflexivity].
  - exfalso. apply (Hround Hg). reflexivity.
Qed.

(** X3: while a game is being played there is always a round to show: the
    guard [!levelData] of [handleBlockClick] never fires in a reachable
    session. *)
Theorem playing_has_a_round (random : nat -> Q) (st : Session) :
  reachable random st -> gameState st = PLAYING ->
  exists level : LevelData,
    levelData st = Some level /\ generated random level.
Proof.
  exact (playing_round_generated random st).
Qed.

Lemma playing_has_a_round_witness :
  reachable cycle opening /\ gameState opening = PLAYING
  /\ exists level : LevelData, levelData opening = Some level.
Proof.
  split; [exact opening_reachable|]. split; [reflexivity|].
  destruct (playing_has_a_round cycle opening opening_reachable eq_refl)
    as (level & H & _).
  exists level. exact H.
Defined.

(** ** Difficulty and feedback follow the score *)

Lemma L1_cases (random : nat -> Q) (q : Q) (n : nat) :
  in_range random -> 0 <= q ->
  L1 (fst (generateColor random q n)) == delta q
  \/ L1 (fst (generateColor random q n)) == 360 - delta q.
Proof.
  intros Hr Hq.
  pose proof (perturbation random Hr q Hq n) as P.
  pose proof (delta_bounds q Hq) as Db.
  set (level := fst (generateColor random q n)) in *.
  unfold L1.
  destruct (branch (random (3 + n)%nat)).
  - destruct P as (_ & [E | E] & _ & _ & -> & ->);
      [left | right];
      repeat (apply Qabs_case; intro); lra.
  - destruct P as (-> & [E | E] & _ & _ & ->); left;
      repeat (apply Qabs_case; intro); lra.
  - destruct P as (-> & -> & [E | E] & _ & _); left;
      repeat (apply Qabs_case; intro); lra.
Qed.

(** X4: the round on screen was always generated at a difficulty equal to
    the current score, so its two colours are [max(1.5, 15 - score / 4)]
    apart (or 360 minus that when the hue wrapped). *)
Theorem difficulty_tracks_score
    (random : nat -> Q) (st : Session) (level : LevelData) :
  in_range random -> reachable random st -> levelData st = Some level ->
  (exists n : nat, level = fst (generateColor random (score st) n))
  /\ (L1 level == Qmax 1.5 (15 - score st * 0.25)
      \/ L1 level == 360 - Qmax 1.5 (15 - score st * 0.25)).
Proof.
  intros Hrange Hr Hl.
  destruct (reachable_coherent random st Hr) as (_ & _ & _ & Hlevel & _).
  destruct (reachable_inv random st Hr) as (Hs & _).
  destruct (Hlevel level Hl) as (n & ->).
  split; [exists n; reflexivity|].
  exact (L1_cases random (score st) n Hrange Hs).
Qed.

Lemma difficulty_tracks_score_witness :
  in_range cycle /\ reachable cycle opening
  /\ levelData opening = Some opening_level
  /\ exists n : nat,
       opening_level = fst (generateColor cycle (score opening) n).
Proof.
  split; [exact cycle_in_range|]. split; [exact opening_reachable|].
  split; [reflexivity|].
  apply (difficulty_tracks_score cycle opening opening_level
           cycle_in_range opening_reachable eq_refl).
Defined.

(** X5: the feedback panel is absent exactly while the score is 0, and
    when present the value it shows is the perturbation magnitude of the
    previous level, [max(1.5, 15 - (score - 1) / 4)] (or 360 minus that
    when the hue wrapped). *)
Theorem feedback_follows_score (random : nat -> Q) (st : Session) :
  in_range random -> reachable random st ->
  (lastDiff st = None <-> score st == 0)
  /\ forall fb : LastDiff,
       lastDiff st = Some fb ->
       1 <= score st
       /\ (shown fb == Qmax 1.5 (15 - (score st - 1) * 0.25)
           \/ shown fb == 360 - Qmax 1.5 (15 - (score st - 1) * 0.25)).
Proof.
  intros Hrange Hr.
  destruct (reachable_coherent random st Hr)
    as (_ & _ & _ & _ & Hnone & Hsome).
  assert (F : forall fb : LastDiff,
             lastDiff st = Some fb ->
             1 <= score st
             /\ (shown fb == delta (score st - 1)
                 \/ shown fb == 360 - delta (score st - 1))).
  { intros fb Hfb.
    destruct (Hsome fb Hfb) as (q & n & z & Hz & Hq & Hs & ->).
    assert (Hq0 : 0 <= q) by (rewrite Hq; apply level_nonneg; exact Hz).
    split; [rewrite Hs; lra|].
    assert (G : generated random (fst (generateColor random q n))).
    { exists z, q, n. split; [exact Hz | split; [exact Hq | reflexivity]]. }
    destruct (generated_L1 random _ Hrange G) as (H0 & k & Hk).
    assert (E : shown (diffMetric (fst (generateColor random q n)))
                == L1 (fst (generateColor random q n))).
    { exact (JSFacts.toFixed2_quarters _ k H0 Hk). }
    assert (D : delta (score st - 1) == delta q).
    { apply delta_comp. rewrite Hs. ring. }
    rewrite E, D. exact (L1_cases random q n Hrange Hq0). }
  split; [|exact F].
  split.
  - intro H. rewrite (Hnone H). reflexivity.
  - intro H. destruct (lastDiff st) as [fb|] eqn:E; [|reflexivity].
    destruct (F fb eq_refl) as (H1 & _). lra.
Qed.

Lemma feedback_follows_score_witness :
  in_range cycle /\ reachable cycle opening /\ lastDiff opening = None.
Proof.
  split; [exact cycle_in_range|]. split; [exact opening_reachable|].
  apply (feedback_follows_score cycle opening cycle_in_range
           opening_reachable).
  reflexivity.
Defined.

(** ** How a game runs and ends *)

Lemma tick_step_running (random : nat -> Q) (st : Session) :
  gameState st = PLAYING -> timerRef st = true -> 1 < timeLeft st ->
  step random Tick st
  = Some (mkSession PLAYING (score st) (timeLeft st - 1) (levelData st)
            (lastDiff st) true (confetti st) (drawn st)).
Proof.
  intros Hg Ht H1. unfold step. cbn [deliverable handle]. rewrite Ht.
  rewrite (tick_running st H1). unfold timerEffect. cbn. rewrite Hg.
  reflexivity.
Qed.

Lemma tick_step_expired (random : nat -> Q) (st : Session) :
  timerRef st = true -> timeLeft st <= 1 ->
  step random Tick st
  = Some (mkSession GAMEOVER (score st) 0 (levelData st)
            (lastDiff st) false (S (confetti st)) (drawn st)).
Proof.
  intros Ht H1. unfold step. cbn [deliverable handle]. rewrite Ht.
  rewrite (tick_expired st H1). reflexivity.
Qed.

(** X6: left alone, a game with [n] seconds on the clock ends after exactly
    [max(1, n)] ticks: it is still being played after any smaller number of
    ticks, and after that many it is over with [timeLeft = 0], the score as
    it was and the confetti fired once. *)
Theorem ticks_end_the_game (random : nat -> Q) (n : nat) (st : Session) :
  gameState st = PLAYING -> timerRef st = true ->
  timeLeft st == inject_Z (Z.of_nat n) ->
  (exists st' : Session,
      run random (repeat Tick (Nat.max 1 n)) st = Some st'
      /\ gameState st' = GAMEOVER
      /\ timeLeft st' = 0
      /\ score st' = score st
      /\ confetti st' = S (confetti st)
      /\ timerRef st' = false)
  /\ forall k : nat,
       (k < Nat.max 1 n)%nat ->
       exists st'' : Session,
         run random (repeat Tick k) st = Some st''
         /\ gameState st'' = PLAYING.
Proof.
  revert st. induction n as [|n IH]; intros st Hg Ht Hn.
  - cbn [Nat.max repeat run]. split.
    + rewrite (tick_step_expired random st Ht)
        by (rewrite Hn; discriminate).
      eexists. split; [reflexivity|]. cbn. repeat split; reflexivity.
    + intros k Hk. assert (k = 0%nat) as -> by lia.
      exists st. split; [reflexivity | exact Hg].
  - destruct n as [|m].
    + cbn [Nat.max repeat run]. split.
      * rewrite (tick_step_expired random st Ht)
          by (rewrite Hn; discriminate).
        eexists. split; [reflexivity|]. cbn. repeat split; reflexivity.
      * intros k Hk. assert (k = 0%nat) as -> by lia.
        exists st. split; [reflexivity | exact Hg].
    + assert (H1 : 1 < timeLeft st).
      { rewrite Hn. change 1 with (inject_Z 1). rewrite <- Zlt_Qlt. lia. }
      replace (Nat.max 1 (S (S m))) with (S (Nat.max 1 (S m))) by lia.
      set (st1 := mkSession PLAYING (score st) (timeLeft st - 1)
                    (levelData st) (lastDiff st) true (confetti st)
                    (drawn st)).
      assert (E1 : step random Tick st = Some st1)
        by (apply tick_step_running; assumption).
      assert (Hn1 : timeLeft st1 == inject_Z (Z.of_nat (S m))).
      { unfold st1. cbn [timeLeft]. rewrite Hn.
        rewrite (Nat2Z.inj_succ (S m)). unfold Z.succ.
        rewrite inject_Z_plus. change (inject_Z 1) with 1. ring. }
      destruct (IH st1 eq_refl eq_refl Hn1) as ((st' & Hrun & Hres) & Hbefore).
      split.
      * exists st'. cbn [repeat run]. rewrite E1. split; [exact Hrun|].
        exact Hres.
      * intros k Hk. destruct k as [|k].
        -- exists st. split; [reflexivity | exact Hg].
        -- destruct (Hbefore k) as (st'' & Hrun'' & Hg''); [lia|].
           exists st''. cbn [repeat run]. rewrite E1.
           split; assumption.
Qed.

Lemma ticks_end_the_game_witness :
  gameState opening = PLAYING /\ timerRef opening = true
  /\ timeLeft opening == inject_Z (Z.of_nat 60)
  /\ exists st' : Session,
       run cycle (repeat Tick (Nat.max 1 60)) opening = Some st'
       /\ gameState st' = GAMEOVER.
Proof.
  split; [reflexivity|]. split; [reflexivity|]. split; [reflexivity|].
  destruct (ticks_end_the_game cycle 60 opening eq_refl eq_refl)
    as ((st' & Hrun & Hg & _) & _); [reflexivity|].
  exists st'. split; assumption.
Defined.

(** X7: clicks never end a game: after any list of clicks, right or wrong,
    a game that was being played is still being played, no confetti have
    been fired and the score has not gone down -- even when wrong clicks
    have brought [timeLeft] to 0. *)
Theorem clicks_never_end_the_game
    (random : nat -> Q) (es : list Event) (st : Session) :
  forallb isClick es = true ->
  gameState st = PLAYING -> levelData st <> None ->
  exists st' : Session,
    run random es st = Some st'
    /\ gameState st' = PLAYING
    /\ levelData st' <> None
    /\ confetti st' = confetti st
    /\ score st <= score st'.
Proof.
  revert st. induction es as [|e es IH]; intros st Hes Hg Hl.
  - exists st. cbn. repeat split; try assumption; lra.
  - cbn [forallb] in Hes. apply andb_true_iff in Hes as [He Hes].
    destruct e as [|index| |]; try discriminate He.
    destruct (levelData st) as [level|] eqn:El; [|congruence].
    cbn [run]. unfold step. cbn [deliverable handle].
    destruct (Qeq_dec index (diffIndex level)) as [Hi | Hi].
    + rewrite (click_correct_fields random index st level Hg El Hi).
      destruct (IH (timerEffect
                      (mkSession PLAYING (score st + 1)
                         (JS.Math_min 60 (timeLeft st + 2))
                         (Some (fst (generateColor random (score st + 1)
                                       (drawn st))))
                         (Some (diffMetric level)) (timerRef st)
                         (confetti st)
                         (snd (generateColor random (score st + 1)
                                 (drawn st))))) Hes)
        as (st' & Hrun & Hg' & Hl' & Hc' & Hs');
        [reflexivity | cbn; discriminate |].
      exists st'. split; [exact Hrun|]. cbn in Hc', Hs'.
      repeat split; try assumption. lra.
    + rewrite (click_wrong_fields random index st level Hg El Hi).
      destruct (IH (timerEffect
                      (mkSession PLAYING (score st)
                         (JS.Math_max 0 (timeLeft st - 5))
                         (levelData st) (lastDiff st) (timerRef st)
                         (confetti st) (drawn st))) Hes)
        as (st' & Hrun & Hg' & Hl' & Hc' & Hs');
        [reflexivity | cbn; rewrite El; discriminate |].
      exists st'. split; [exact Hrun|]. cbn in Hc', Hs'.
      repeat split; assumption.
Qed.

Lemma clicks_never_end_the_game_witness :
  forallb isClick (repeat (CellClicked 7) 13) = true
  /\ gameState opening = PLAYING /\ levelData opening <> None
  /\ exists st' : Session,
       run cycle (repeat (CellClicked 7) 13) opening = Some st'
       /\ gameState st' = PLAYING /\ timeLeft st' == 0.
Proof.
  assert (L : levelData opening <> None) by (vm_compute; discriminate).
  split; [reflexivity|]. split; [reflexivity|]. split; [exact L|].
  destruct (clicks_never_end_the_game cycle (repeat (CellClicked 7) 13)
              opening eq_refl eq_refl L) as (st' & Hrun & Hg & _).
  exists st'. split; [exact Hrun|]. split; [exact Hg|].
  assert (E : option_map timeLeft
                (run cycle (repeat (CellClicked 7) 13) opening)
              = Some 0)
    by (vm_compute; reflexivity).
  rewrite Hrun in E. cbn in E. injection E as ->. reflexivity.
Defined.

(** ** What changes the score, the clock and the confetti *)

(** X8: apart from [Start], the only event that changes the score is a
    click on the odd cell while playing, and it adds exactly 1; no event
    ever lowers the score of a running game. *)
Theorem score_changes_only_by_correct_click
    (random : nat -> Q) (e : Event) (st st' : Session) :
  step random e st = Some st' -> e <> Start ->
  score st' = score st
  \/ (score st' = score st + 1
      /\ exists (index : Q) (level : LevelData),
           e = CellClicked index /\ gameState st = PLAYING
           /\ levelData st = Some level /\ index == diffIndex level).
Proof.
  unfold step. destruct (deliverable e st); [|discriminate].
  intros H He. injection H as <-.
  destruct e as [|index| |]; cbn [handle timerEffect score].
  - congruence.
  - destruct (gameState st) eqn:Hg;
      try (rewrite click_ignored
             by (left; rewrite Hg; discriminate);
           left; reflexivity).
    destruct (levelData st) as [level|] eqn:Hl;
      [|rewrite click_ignored by (right; exact Hl); left; reflexivity].
    destruct (Qeq_dec index (diffIndex level)) as [Hi | Hi].
    + rewrite (click_correct_fields random index st level Hg Hl Hi).
      right. split; [reflexivity|].
      exists index, level. repeat split; assumption.
    + rewrite (click_wrong_fields random index st level Hg Hl Hi).
      left. reflexivity.
  - left. unfold timerCallback.
    destruct (JS.leb (timeLeft st) 1); reflexivity.
  - left. reflexivity.
Qed.

Lemma score_changes_only_by_correct_click_witness :
  step cycle Tick opening
  = Some (mkSession PLAYING (score opening) (timeLeft opening - 1)
            (levelData opening) (lastDiff opening) true
            (confetti opening) (drawn opening))
  /\ Tick <> Start
  /\ (score (mkSession PLAYING (score opening) (timeLeft opening - 1)
               (levelData opening) (lastDiff opening) true
               (confetti opening) (drawn opening))
      = score opening
      \/ exists index : Q, Tick = CellClicked index).
Proof.
  assert (E : step cycle Tick opening
              = Some (mkSession PLAYING (score opening)
                        (timeLeft opening - 1) (levelData opening)
                        (lastDiff opening) true (confetti opening)
                        (drawn opening)))
    by (apply tick_step_running; vm_compute; reflexivity).
  split; [exact E|]. split; [discriminate|].
  destruct (score_changes_only_by_correct_click cycle Tick opening _ E)
    as [H | (_ & index & _ & H & _)].
  - discriminate.
  - left. exact H.
  - right. exists index. exact H.
Defined.

(** X9: in a session whose clock is within [[0, 60]], no event other than
    [Start] adds more than 2 to [timeLeft], and the only one that adds
    anything is a click on the odd cell while playing: ticks and wrong
    clicks never give time back. *)
Theorem time_grows_only_by_correct_click
    (random : nat -> Q) (e : Event) (st st' : Session) :
  step random e st = Some st' -> e <> Start ->
  0 <= timeLeft st <= 60 ->
  timeLeft st' <= timeLeft st + 2
  /\ 0 <= timeLeft st' <= 60
  /\ (timeLeft st < timeLeft st' ->
      exists (index : Q) (level : LevelData),
        e = CellClicked index /\ gameState st = PLAYING
        /\ levelData st = Some level /\ index == diffIndex level).
Proof.
  unfold step. destruct (deliverable e st); [|discriminate].
  intros H He Ht. injection H as <-.
  destruct e as [|index| |]; cbn [handle timerEffect timeLeft].
  - congruence.
  - destruct (gameState st) eqn:Hg;
      try (rewrite click_ignored
             by (left; rewrite Hg; discriminate);
           repeat split; try lra; intro; lra).
    destruct (levelData st) as [level|] eqn:Hl;
      [|rewrite click_ignored by (right; exact Hl);
        repeat split; try lra; intro; lra].
    destruct (Qeq_dec index (diffIndex level)) as [Hi | Hi].
    + rewrite (click_correct_fields random index st level Hg Hl Hi).
      cbn [timeLeft]. unfold JS.Math_min.
      destruct (Q.min_spec 60 (timeLeft st + 2)) as [[L E] | [L E]];
        rewrite E; repeat split; try lra;
        intros _; exists index, level; repeat split; assumption.
    + rewrite (click_wrong_fields random index st level Hg Hl Hi).
      cbn [timeLeft]. unfold JS.Math_max.
      destruct (Q.max_spec 0 (timeLeft st - 5)) as [[L E] | [L E]];
        rewrite E; repeat split; try lra; intro; lra.
  - destruct (Qlt_le_dec 1 (timeLeft st)) as [Hgt | Hle].
    + rewrite (tick_running st Hgt). cbn [timeLeft].
      repeat split; try lra; intro; lra.
    + rewrite (tick_expired st Hle). cbn [timeLeft].
      repeat split; try lra; intro; lra.
  - cbn [mainMenu timeLeft]. repeat split; try lra; intro; lra.
Qed.

Lemma time_grows_only_by_correct_click_witness :
  step cycle (CellClicked 7) opening
  = Some (timerEffect (handleBlockClick cycle 7 opening))
  /\ CellClicked 7 <> Start
  /\ 0 <= timeLeft opening <= 60
  /\ timeLeft (timerEffect (handleBlockClick cycle 7 opening))
     <= timeLeft opening + 2.
Proof.
  assert (T : 0 <= timeLeft opening <= 60)
    by (split; vm_compute; discriminate).
  split; [reflexivity|]. split; [discriminate|]. split; [exact T|].
  apply (time_grows_only_by_correct_click cycle (CellClicked 7) opening
           _ eq_refl); [discriminate | exact T].
Defined.

Lemma confetti_step (random : nat -> Q) (e : Event) (st st' : Session) :
  (timerRef st = true -> gameState st = PLAYING) ->
  step random e st = Some st' ->
  (confetti st' + inPlay st'
   <= confetti st + inPlay st + (if isStart e then 1 else 0))%nat.
Proof.
  intros Ht. unfold step.
  destruct (deliverable e st) eqn:Hdel; [|discriminate].
  intro H. injection H as <-. unfold inPlay.
  destruct e as [|index| |]; cbn [handle timerEffect confetti gameState isStart].
  - rewrite startGame_fields. cbn. lia.
  - destruct (gameState st) eqn:Hg;
      try (rewrite click_ignored
             by (left; rewrite Hg; discriminate);
           rewrite Hg; lia).
    destruct (levelData st) as [level|] eqn:Hl;
      [|rewrite click_ignored by (right; exact Hl); rewrite Hg; lia].
    destruct (Qeq_dec index (diffIndex level)) as [Hi | Hi].
    + rewrite (click_correct_fields random index st level Hg Hl Hi).
      cbn. lia.
    + rewrite (click_wrong_fields random index st level Hg Hl Hi).
      cbn. lia.
  - cbn [deliverable] in Hdel. rewrite (Ht Hdel).
    destruct (Qlt_le_dec 1 (timeLeft st)) as [Hgt | Hle].
    + rewrite (tick_running st Hgt). cbn. rewrite (Ht Hdel). lia.
    + rewrite (tick_expired st Hle). cbn. lia.
  - cbn. destruct (gameState st); lia.
Qed.

Lemma confetti_run (random : nat -> Q) (es : list Event) (st st' : Session) :
  (timerRef st = true -> gameState st = PLAYING) ->
  run random es st = Some st' ->
  (confetti st' + inPlay st' <= confetti st + inPlay st + starts es)%nat.
Proof.
  revert st. induction es as [|e es IH]; intros st Ht Hrun; cbn [run] in Hrun.
  - injection Hrun as <-. cbn. lia.
  - destruct (step random e st) as [st1|] eqn:E; [|discriminate].
    pose proof (confetti_step random e st st1 Ht E) as H1.
    assert (Ht1 : timerRef st1 = true -> gameState st1 = PLAYING)
      by (apply (timer_follows_state random e st st1 E)).
    pose proof (IH st1 Ht1 Hrun) as H2.
    unfold starts in *. cbn [filter].
    destruct (isStart e); cbn [List.length]; lia.
Qed.

(** X10: the confetti are fired at most once per game: after any list of
    events handled from the initial session, the number of confetti calls,
    plus one if a game is still being played, is at most the number of
    [Start] events. *)
Theorem confetti_at_most_once_per_game
    (random : nat -> Q) (es : list Event) (st : Session) :
  run random es initial = Some st ->
  (confetti st + inPlay st <= starts es)%nat.
Proof.
  intro Hrun.
  apply (confetti_run random es initial st) in Hrun; [exact Hrun|].
  cbn. discriminate.
Qed.

Lemma confetti_at_most_once_per_game_witness :
  run cycle (Start :: repeat Tick 60) initial = Some timed_out
  /\ (confetti timed_out + inPlay timed_out
      <= starts (Start :: repeat Tick 60))%nat.
Proof.
  assert (E : run cycle (Start :: repeat Tick 60) initial = Some timed_out)
    by (vm_compute; reflexivity).
  split; [exact E|].
  exact (confetti_at_most_once_per_game cycle _ timed_out E).
Defined.

(** ** What is rendered *)

Lemma renderGrid_five (level : LevelData) :
  gridSize level = 5 ->
  renderGrid level
  = Some (map (fun i : nat =>
                 mkCell (inject_Z (Z.of_nat i)) (inject_Z (Z.of_nat i))
                   (if JS.eqb (inject_Z (Z.of_nat i)) (diffIndex level)
                    then colorToCss (diffColor level)
                    else colorToCss (baseColor level)))
              (seq 0 25)).
Proof.
  intro H. unfold renderGrid. rewrite H. reflexivity.
Qed.

Lemma eqb_inject_Z (a b : Z) :
  JS.eqb (inject_Z a) (inject_Z b) = (a =? b)%Z.
Proof.
  destruct (Z.eqb_spec a b) as [-> | N].
  - apply JSFacts.eqb_eq. reflexivity.
  - apply JSFacts.eqb_neq. intro E. apply N.
    apply inject_Z_injective. exact E.
Qed.

(** X11: while a reachable game is being played, the grid has exactly 25
    buttons (the random source returning binary64 values), the [i]-th of
    which passes [i] to [handleBlockClick]; exactly
    one of them, at position [diffIndex], is drawn in [diffColor] and scores
    a point when clicked; each of the 24 others is drawn in [baseColor] and,
    when clicked, leaves the score as it is and costs 5 seconds. *)
Theorem grid_has_one_odd_cell
    (random : nat -> Q) (st : Session) (level : LevelData) :
  in_range random -> returns_doubles random -> reachable random st ->
  gameState st = PLAYING -> levelData st = Some level ->
  exists (cells : list Cell) (odd : nat),
    renderGrid level = Some cells
    /\ List.length cells = 25%nat
    /\ (odd < 25)%nat
    /\ diffIndex level = inject_Z (Z.of_nat odd)
    /\ forall (i : nat) (c : Cell),
         nth_error cells i = Some c ->
         key c = inject_Z (Z.of_nat i)
         /\ onClick c = inject_Z (Z.of_nat i)
         /\ (i = odd ->
             backgroundColor c = colorToCss (diffColor level)
             /\ score (handleBlockClick random (onClick c) st)
                = score st + 1)
         /\ (i <> odd ->
             backgroundColor c = colorToCss (baseColor level)
             /\ score (handleBlockClick random (onClick c) st) = score st
             /\ timeLeft (handleBlockClick random (onClick c) st)
                = Qmax 0 (timeLeft st - 5)).
Proof.
  intros Hrange Hdb Hr Hg Hl.
  destruct (reachable_tracked random st Hr) as (_ & Hgen).
  destruct (Hgen level Hl) as (d & q & n & _ & _ & ->).
  pose proof (generated_gridSize random q n) as Hsize.
  destruct (generated_index random Hrange Hdb q n) as (z & Hz & Hz0 & Hz25).
  set (level := fst (generateColor random q n)) in *.
  eexists. exists (Z.to_nat z).
  split; [apply renderGrid_five; exact Hsize|].
  split; [rewrite length_map, length_seq; reflexivity|].
  split; [lia|].
  split; [rewrite Z2Nat.id by lia; exact Hz|].
  intros i c Hc.
  rewrite nth_error_map, nth_error_seq in Hc.
  destruct (Nat.ltb_spec i 25) as [Hi | Hi]; [|discriminate Hc].
  cbn [option_map Nat.add] in Hc. injection Hc as <-.
  cbn [key onClick backgroundColor].
  split; [reflexivity|]. split; [reflexivity|].
  rewrite Hz, eqb_inject_Z.
  split.
  - intros ->. rewrite Z2Nat.id by lia. rewrite Z.eqb_refl.
    split; [reflexivity|].
    rewrite (click_correct_fields random (inject_Z z) st level Hg Hl)
      by (rewrite Hz; reflexivity).
    reflexivity.
  - intro Hne.
    destruct (Z.eqb_spec (Z.of_nat i) z) as [E | N]; [exfalso; lia|].
    split; [reflexivity|].
    rewrite (click_wrong_fields random (inject_Z (Z.of_nat i)) st level Hg Hl).
    + split; reflexivity.
    + rewrite Hz. intro E. apply N. apply inject_Z_injective. exact E.
Qed.

Lemma opening_dyadic_reachable : reachable dyadic opening_dyadic.
Proof.
  apply (reachable_step dyadic Start initial opening_dyadic).
  - apply reachable_initial.
  - reflexivity.
Qed.

Lemma opening_dyadic_playing : gameState opening_dyadic = PLAYING.
Proof. vm_compute. reflexivity. Qed.

Lemma opening_dyadic_level :
  levelData opening_dyadic = Some (fst (generateColor dyadic 0 0%nat)).
Proof. vm_compute. reflexivity. Qed.

Lemma grid_has_one_odd_cell_witness :
  in_range dyadic /\ returns_doubles dyadic
  /\ reachable dyadic opening_dyadic
  /\ gameState opening_dyadic = PLAYING
  /\ levelData opening_dyadic = Some (fst (generateColor dyadic 0 0%nat))
  /\ exists cells : list Cell,
       renderGrid (fst (generateColor dyadic 0 0%nat)) = Some cells
       /\ List.length cells = 25%nat.
Proof.
  split; [exact dyadic_in_range|]. split; [exact dyadic_doubles|].
  split; [exact opening_dyadic_reachable|].
  split; [exact opening_dyadic_playing|].
  split; [exact opening_dyadic_level|].
  destruct (grid_has_one_odd_cell dyadic opening_dyadic _ dyadic_in_range
              dyadic_doubles opening_dyadic_reachable
              opening_dyadic_playing opening_dyadic_level)
    as (cells & odd & H1 & H2 & _).
  exists cells. split; assumption.
Defined.

(** X12: in every reachable session exactly one of the three screens is
    rendered, and rendering does not fail: the start screen with its nine
    swatches in [START], the grid of 25 buttons with the feedback panel in
    [PLAYING], the final score and rank in [GAMEOVER]. *)
Theorem one_screen_is_rendered (random : nat -> Q) (st : Session) :
  in_range random -> reachable random st ->
  exists p : Panel,
    renderMain st = Some [p]
    /\ match gameState st with
       | START =>
           exists swatches : list string,
             p = StartPanel swatches /\ List.length swatches = 9%nat
       | PLAYING =>
           exists cells : list Cell,
             p = PlayingPanel cells (lastDiff st)
             /\ List.length cells = 25%nat
       | GAMEOVER => p = GameOverPanel (score st) (rank (score st))
       end.
Proof.
  intros Hrange Hr. unfold renderMain.
  destruct (gameState st) eqn:Hg.
  - eexists. split; [reflexivity|].
    eexists. split; reflexivity.
  - destruct (playing_round_generated random st Hr Hg)
      as (level & Hl & d & q & n & _ & _ & E).
    rewrite Hl.
    pose proof (generated_gridSize random q n) as Hsize.
    rewrite <- E in Hsize. rewrite (renderGrid_five level Hsize).
    eexists. split; [reflexivity|].
    eexists. split; [reflexivity|].
    rewrite length_map, length_seq. reflexivity.
  - destruct (levelData st); eexists; split; reflexivity.
Qed.

Lemma one_screen_is_rendered_witness :
  in_range cycle /\ reachable cycle timed_out
  /\ exists p : Panel, renderMain timed_out = Some [p].
Proof.
  split; [exact cycle_in_range|]. split; [exact timed_out_reachable|].
  destruct (one_screen_is_rendered cycle timed_out cycle_in_range
              timed_out_reachable) as (p & H & _).
  exists p. exact H.
Defined.

(** ** Printing numbers and colours *)

Module Printing.

Lemma append_inv_head (x y y' : string) :
  (x ++ y)%string = (x ++ y')%string -> y = y'.
Proof.
  induction x as [|a x IH]; cbn [append]; intro H.
  - exact H.
  - injection H as H. exact (IH H).
Qed.

Lemma list_of_append (x y : string) :
  list_ascii_of_string (x ++ y)
  = (list_ascii_of_string x ++ list_ascii_of_string y)%list.
Proof.
  induction x as [|a x IH]; cbn; [reflexivity|]. rewrite IH. reflexivity.
Qed.

Lemma append_inv_tail (x x' t : string) :
  (x ++ t)%string = (x' ++ t)%string -> x = x'.
Proof.
  intro H. apply (f_equal list_ascii_of_string) in H.
  rewrite !list_of_append in H. apply app_inv_tail in H.
  apply (f_equal string_of_list_ascii) in H.
  rewrite !string_of_list_ascii_of_string in H. exact H.
Qed.

Lemma append_empty_r (x : string) : (x ++ "")%string = x.
Proof.
  induction x as [|a x IH]; cbn; [reflexivity|]. rewrite IH. reflexivity.
Qed.

(** The decimal digits of an integer contain no dot. *)
Lemma before_dot_uint (u : Decimal.uint) (x : string) :
  before_dot (NilEmpty.string_of_uint u ++ x)
  = (NilEmpty.string_of_uint u ++ before_dot x)%string.
Proof.
  induction u as [|u IH|u IH|u IH|u IH|u IH|u IH|u IH|u IH|u IH|u IH];
    cbn; [reflexivity | rewrite IH; reflexivity ..].
Qed.

Lemma to_uint_nonnil (m : N) : N.to_uint m <> Decimal.Nil.
Proof.
  destruct m as [|p]; cbn.
  - discriminate.
  - apply DecimalPos.Unsigned.to_uint_nonnil.
Qed.

Lemma digits_NilEmpty (z : Z) :
  digits z = NilEmpty.string_of_uint (N.to_uint (Z.to_N z)).
Proof.
  unfold digits, NilZero.string_of_uint.
  pose proof (to_uint_nonnil (Z.to_N z)) as H.
  destruct (N.to_uint (Z.to_N z)); [congruence | reflexivity ..].
Qed.

Lemma before_dot_digits (z : Z) (x : string) :
  before_dot (digits z ++ x) = (digits z ++ before_dot x)%string.
Proof. rewrite digits_NilEmpty. apply before_dot_uint. Qed.

Lemma digits_inj (a b : Z) :
  (0 <= a)%Z -> (0 <= b)%Z -> digits a = digits b -> a = b.
Proof.
  intros Ha Hb H. unfold digits in H.
  apply (f_equal NilZero.uint_of_string) in H.
  rewrite !NilZero.usu in H by apply to_uint_nonnil.
  injection H as H. apply DecimalN.Unsigned.to_uint_inj in H.
  apply Z2N.inj; assumption.
Qed.

Lemma before_dot_suffix (f : Z) : before_dot (quarter_suffix f) = ""%string.
Proof.
  unfold quarter_suffix.
  destruct (f =? 1)%Z; [reflexivity|].
  destruct (f =? 2)%Z; [reflexivity|].
  destruct (f =? 3)%Z; reflexivity.
Qed.

Lemma quarter_suffix_inj (f g : Z) :
  (0 <= f < 4)%Z -> (0 <= g < 4)%Z ->
  quarter_suffix f = quarter_suffix g -> f = g.
Proof.
  intros Hf Hg.
  assert (Cf : (f = 0 \/ f = 1 \/ f = 2 \/ f = 3)%Z) by lia.
  assert (Cg : (g = 0 \/ g = 1 \/ g = 2 \/ g = 3)%Z) by lia.
  destruct Cf as [-> | [-> | [-> | ->]]];
    destruct Cg as [-> | [-> | [-> | ->]]];
    cbn; intro H; try reflexivity; discriminate H.
Qed.

(** A printed number of quarters determines the number. *)
Lemma printed_quarters_inj (k k' : Z) :
  (0 <= k)%Z -> (0 <= k')%Z ->
  (digits (k / 4) ++ quarter_suffix (k mod 4))%string
  = (digits (k' / 4) ++ quarter_suffix (k' mod 4))%string ->
  k = k'.
Proof.
  intros Hk Hk' H.
  assert (D : digits (k / 4) = digits (k' / 4)).
  { pose proof (f_equal before_dot H) as B.
    rewrite !before_dot_digits, !before_dot_suffix, !append_empty_r in B.
    exact B. }
  rewrite D in H. apply append_inv_head in H.
  apply digits_inj in D;
    [| apply Z.div_pos; lia | apply Z.div_pos; lia].
  apply quarter_suffix_inj in H;
    [| apply Z.mod_pos_bound; lia | apply Z.mod_pos_bound; lia].
  rewrite (Z.div_mod k 4), (Z.div_mod k' 4) by lia. lia.
Qed.

Lemma frac_digits_step (fuel : nat) (num den : Z) :
  JS.frac_digits (S fuel) num den
  = if (num =? 0)%Z then EmptyString
    else String (JS.digit (num * 10 / den))
                (JS.frac_digits fuel ((num * 10) mod den) den).
Proof. reflexivity. Qed.

Lemma frac_digits_zero (fuel : nat) (den : Z) :
  JS.frac_digits fuel 0 den = EmptyString.
Proof. destruct fuel; reflexivity. Qed.

Lemma div_mod_known (a b q r : Z) :
  (0 <= r < b)%Z -> a = (b * q + r)%Z ->
  (a / b = q /\ a mod b = r)%Z.
Proof.
  intros Hr E. split.
  - symmetry. apply (Z.div_unique a b q r); [left; exact Hr | exact E].
  - symmetry. apply (Z.mod_unique a b q r); [left; exact Hr | exact E].
Qed.

(** The fractional digits of [r / den] when it is a number of quarters. *)
Lemma frac_digits_quarters (r den f : Z) :
  (0 < den)%Z -> (0 <= f < 4)%Z -> (4 * r = f * den)%Z ->
  (if (r =? 0)%Z then "" else "." ++ JS.frac_digits 20 r den)%string
  = quarter_suffix f.
Proof.
  intros Hden Hf E.
  assert (C : (f = 0 \/ f = 1 \/ f = 2 \/ f = 3)%Z) by lia.
  destruct C as [-> | [-> | [-> | ->]]]; unfold quarter_suffix; cbn [Z.eqb].
  - assert (r = 0%Z) as -> by lia. reflexivity.
  - destruct (Z.eqb_spec r 0) as [Z0 | _]; [lia|].
    rewrite frac_digits_step.
    destruct (Z.eqb_spec r 0) as [Z0 | _]; [lia|].
    destruct (div_mod_known (r * 10) den 2 (2 * r)) as [-> ->]; [lia | lia |].
    rewrite frac_digits_step.
    destruct (Z.eqb_spec (2 * r) 0) as [Z0 | _]; [lia|].
    destruct (div_mod_known (2 * r * 10) den 5 0) as [-> ->]; [lia | lia |].
    rewrite frac_digits_zero. reflexivity.
  - destruct (Z.eqb_spec r 0) as [Z0 | _]; [lia|].
    rewrite frac_digits_step.
    destruct (Z.eqb_spec r 0) as [Z0 | _]; [lia|].
    destruct (div_mod_known (r * 10) den 5 0) as [-> ->]; [lia | lia |].
    rewrite frac_digits_zero. reflexivity.
  - destruct (Z.eqb_spec r 0) as [Z0 | _]; [lia|].
    rewrite frac_digits_step.
    destruct (Z.eqb_spec r 0) as [Z0 | _]; [lia|].
    destruct (div_mod_known (r * 10) den 7 (2 * (den - r)))
      as [-> ->]; [lia | lia |].
    rewrite frac_digits_step.
    destruct (Z.eqb_spec (2 * (den - r)) 0) as [Z0 | _]; [lia|].
    destruct (div_mod_known (2 * (den - r) * 10) den 5 0)
      as [-> ->]; [lia | lia |].
    rewrite frac_digits_zero. reflexivity.
Qed.

(** How a non-negative number of quarters is printed: the digits of its
    integer part, then nothing, [.25], [.5] or [.75]. *)
Lemma toString_quarters (v : Q) (k : Z) :
  0 <= v -> v * 4 == inject_Z k ->
  JS.toString v = (digits (k / 4) ++ quarter_suffix (k mod 4))%string.
Proof.
  intros Hv Hk. unfold JS.toString.
  replace (JS.ltb v 0) with false by (symmetry; apply JSFacts.ltb_ge; exact Hv).
  destruct v as [n d].
  assert (Hn : (0 <= n)%Z).
  { unfold Qle in Hv. cbn in Hv. lia. }
  assert (E : (n * 4 = k * Zpos d)%Z).
  { unfold Qeq in Hk. cbn in Hk. lia. }
  assert (A : Qabs (n # d) = n # d).
  { unfold Qabs. rewrite Z.abs_eq by exact Hn. reflexivity. }
  rewrite A. cbn [Qnum Qden Qfloor].
  pose proof (Z.div_mod k 4 ltac:(lia)) as Dk.
  pose proof (Z.mod_pos_bound k 4 ltac:(lia)) as Bk.
  set (a := (k / 4)%Z) in *. set (f := (k mod 4)%Z) in *.
  assert (R : (4 * (n - a * Zpos d) = f * Zpos d)%Z) by nia.
  assert (Rb : (0 <= n - a * Zpos d < Zpos d)%Z) by nia.
  destruct (div_mod_known n (Zpos d) a (n - a * Zpos d)) as [Hq _];
    [exact Rb | lia |].
  rewrite Hq. cbn [append]. unfold digits. f_equal.
  apply (frac_digits_quarters (n - a * Zpos d) (Zpos d) f);
    [lia | exact Bk | exact R].
Qed.

(** Two non-negative numbers of quarters printed alike are equal. *)
Lemma toString_quarters_inj (v w : Q) (k k' : Z) :
  0 <= v -> v * 4 == inject_Z k ->
  0 <= w -> w * 4 == inject_Z k' ->
  JS.toString v = JS.toString w -> v == w.
Proof.
  intros Hv Hk Hw Hk' H.
  rewrite (toString_quarters v k Hv Hk), (toString_quarters w k' Hw Hk') in H.
  assert (K : (0 <= k)%Z).
  { rewrite Zle_Qle. rewrite <- Hk. change (inject_Z 0) with 0. lra. }
  assert (K' : (0 <= k')%Z).
  { rewrite Zle_Qle. rewrite <- Hk'. change (inject_Z 0) with 0. lra. }
  apply (printed_quarters_inj k k' K K') in H. subst k'.
  rewrite <- Hk' in Hk. lra.
Qed.

End Printing.

(** ** The colours of a generated round *)

Lemma quarters_comp (v w : Q) : v == w -> quarters w -> quarters v.
Proof.
  intros E (H0 & k & Hk). split; [rewrite E; exact H0|].
  exists k. rewrite E. exact Hk.
Qed.

Lemma quarters_shift (v w : Q) (z k : Z) :
  v == inject_Z z -> w * 4 == inject_Z k -> 0 <= v + w ->
  quarters (v + w).
Proof.
  intros Hv Hw H0. split; [exact H0|].
  exists (4 * z + k)%Z.
  rewrite inject_Z_plus, inject_Z_mult, <- Hv, <- Hw.
  change (inject_Z 4) with 4. ring.
Qed.

(** All six channel values of a generated round are non-negative multiples
    of 1/4. *)
Lemma generated_quarters (random : nat -> Q) (level : LevelData) (c : Channel) :
  in_range random -> generated random level ->
  quarters (channel c (baseColor level))
  /\ quarters (channel c (diffColor level)).
Proof.
  intros Hr (d & q & n & Hd & Hq & ->).
  assert (Hq0 : 0 <= q) by (rewrite Hq; apply level_nonneg; exact Hd).
  pose proof (perturbation random Hr q Hq0 n) as P.
  pose proof (base_ranges random Hr q n)
    as ((zh & Eh & Bh) & (zs & Es & Bs) & (zl & El & Bl)).
  pose proof (base_bounds random Hr q n) as (Hh & Hs & Hl).
  pose proof (delta_bounds q Hq0) as Db.
  destruct (delta_quarters d) as [k Hk].
  rewrite <- (delta_comp q (inject_Z d) Hq) in Hk.
  set (level := fst (generateColor random q n)) in *.
  assert (Qh : quarters (h (baseColor level))).
  { apply (quarters_comp _ (h (baseColor level) + 0)); [ring|].
    apply (quarters_shift _ _ zh 0 Eh); [reflexivity | lra]. }
  assert (Qs : quarters (s (baseColor level))).
  { apply (quarters_comp _ (s (baseColor level) + 0)); [ring|].
    apply (quarters_shift _ _ zs 0 Es); [reflexivity | lra]. }
  assert (Ql : quarters (l (baseColor level))).
  { apply (quarters_comp _ (l (baseColor level) + 0)); [ring|].
    apply (quarters_shift _ _ zl 0 El); [reflexivity | lra]. }
  assert (Kp : delta q * 4 == inject_Z k) by exact Hk.
  assert (Km : (- delta q) * 4 == inject_Z (- k)).
  { rewrite inject_Z_opp, <- Hk. ring. }
  assert (Kw : (delta q - 360) * 4 == inject_Z (k - 1440)).
  { unfold Zminus. rewrite inject_Z_plus, inject_Z_opp, <- Hk.
    change (inject_Z 1440) with 1440. ring. }
  split; [destruct c; assumption|].
  destruct (branch (random (3 + n)%nat)).
  - destruct P as (_ & Hd' & Hb & _ & Es' & El').
    destruct c; cbn [channel]; [|rewrite Es'; exact Qs | rewrite El'; exact Ql].
    destruct Hd' as [E | E].
    + apply (quarters_comp _ (h (baseColor level) + delta q)); [exact E|].
      apply (quarters_shift _ _ zh k Eh Kp). lra.
    + apply (quarters_comp _ (h (baseColor level) + (delta q - 360)));
        [rewrite E; ring|].
      apply (quarters_shift _ _ zh (k - 1440) Eh Kw). lra.
  - destruct P as (Eh' & Hd' & Hb & _ & El').
    destruct c; cbn [channel]; [rewrite Eh'; exact Qh | | rewrite El'; exact Ql].
    destruct Hd' as [E | E].
    + apply (quarters_comp _ (s (baseColor level) + delta q)); [exact E|].
      apply (quarters_shift _ _ zs k Es Kp). lra.
    + apply (quarters_comp _ (s (baseColor level) + - delta q));
        [rewrite E; ring|].
      apply (quarters_shift _ _ zs (- k) Es Km). lra.
  - destruct P as (Eh' & Es' & Hd' & Hb & _).
    destruct c; cbn [channel]; [rewrite Eh'; exact Qh | rewrite Es'; exact Qs |].
    destruct Hd' as [E | E].
    + apply (quarters_comp _ (l (baseColor level) + delta q)); [exact E|].
      apply (quarters_shift _ _ zl k El Kp). lra.
    + apply (quarters_comp _ (l (baseColor level) + - delta q));
        [rewrite E; ring|].
      apply (quarters_shift _ _ zl (- k) El Km). lra.
Qed.

Lemma toString_differs (random : nat -> Q) (level : LevelData) (c : Channel) :
  in_range random -> generated random level ->
  ~ channel c (diffColor level) == channel c (baseColor level) ->
  JS.toString (channel c (diffColor level))
  <> JS.toString (channel c (baseColor level)).
Proof.
  intros Hr Hg Hne E. apply Hne.
  destruct (generated_quarters random level c Hr Hg)
    as ((Hb0 & kb & Hkb) & (Hd0 & kd & Hkd)).
  exact (Printing.toString_quarters_inj _ _ kd kb Hd0 Hkd Hb0 Hkb E).
Qed.

Lemma opening_level_generated : generated cycle opening_level.
Proof.
  exists 0%Z, 0, 0%nat. split; [lia | split; reflexivity].
Qed.

(** X13: the odd cell is drawn differently: for every round the engine
    generates, the CSS colour string of [diffColor] is not the string of
    [baseColor], so exactly one button of the grid has its own background. *)
Theorem odd_cell_is_drawn_differently
    (random : nat -> Q) (level : LevelData) :
  in_range random -> generated random level ->
  colorToCss (diffColor level) <> colorToCss (baseColor level).
Proof.
  intros Hr Hg.
  pose proof (toString_differs random level Hue Hr Hg) as Th.
  pose proof (toString_differs random level Saturation Hr Hg) as Ts.
  pose proof (toString_differs random level Lightness Hr Hg) as Tl.
  cbn [channel] in Th, Ts, Tl.
  destruct Hg as (d & q & n & Hd & Hq & ->).
  assert (Hq0 : 0 <= q) by (rewrite Hq; apply level_nonneg; exact Hd).
  pose proof (perturbation random Hr q Hq0 n) as P.
  set (level := fst (generateColor random q n)) in *.
  unfold colorToCss. intro E.
  destruct (branch (random (3 + n)%nat)).
  - destruct P as (_ & _ & _ & Hne & Es & El).
    rewrite Es, El in E.
    apply Printing.append_inv_head in E.
    apply Printing.append_inv_tail in E.
    exact (Th Hne E).
  - destruct P as (Eh & _ & _ & Hne & El).
    rewrite Eh, El in E.
    do 3 apply Printing.append_inv_head in E.
    apply Printing.append_inv_tail in E.
    exact (Ts Hne E).
  - destruct P as (Eh & Es & _ & _ & Hne).
    rewrite Eh, Es in E.
    do 5 apply Printing.append_inv_head in E.
    apply Printing.append_inv_tail in E.
    exact (Tl Hne E).
Qed.

Lemma odd_cell_is_drawn_differently_witness :
  in_range cycle /\ generated cycle opening_level
  /\ colorToCss (diffColor opening_level)
     <> colorToCss (baseColor opening_level).
Proof.
  split; [exact cycle_in_range|]. split; [exact opening_level_generated|].
  exact (odd_cell_is_drawn_differently cycle opening_level cycle_in_range
           opening_level_generated).
Defined.

(** X14: with a random source that returns binary64 values, both colours
    of every generated round are valid HSL colours: hue
    in [[0, 360)], saturation and lightness in [[0, 100]]; the saturation of
    [diffColor] even stays in [[25, 95)] and its lightness in [[15, 85)]. *)
Theorem generated_colors_are_valid
    (random : nat -> Q) (level : LevelData) :
  in_range random -> returns_doubles random -> generated random level ->
  valid_color (baseColor level) /\ valid_color (diffColor level)
  /\ 25 <= s (diffColor level) < 95
  /\ 15 <= l (diffColor level) < 85.
Proof.
  intros Hr Hdb (d & q & n & Hd & Hq & ->).
  assert (Hq0 : 0 <= q) by (rewrite Hq; apply level_nonneg; exact Hd).
  pose proof (perturbation random Hr q Hq0 n) as P.
  pose proof (base_bounds_strict random Hr Hdb q n) as (Hh & Hs & Hl).
  pose proof (delta_bounds q Hq0) as Db.
  set (level := fst (generateColor random q n)) in *.
  unfold valid_color.
  destruct (branch (random (3 + n)%nat)).
  - destruct P as (_ & _ & Hb & _ & -> & ->). repeat split; lra.
  - destruct P as (-> & [E | E] & _ & _ & ->); repeat split; lra.
  - destruct P as (-> & -> & [E | E] & _ & _); repeat split; lra.
Qed.

Lemma dyadic_level_generated :
  generated dyadic (fst (generateColor dyadic 0 0%nat)).
Proof.
  exists 0%Z, 0, 0%nat. split; [lia | split; reflexivity].
Qed.

Lemma generated_colors_are_valid_witness :
  in_range dyadic /\ returns_doubles dyadic
  /\ generated dyadic (fst (generateColor dyadic 0 0%nat))
  /\ valid_color (diffColor (fst (generateColor dyadic 0 0%nat))).
Proof.
  split; [exact dyadic_in_range|]. split; [exact dyadic_doubles|].
  split; [exact dyadic_level_generated|].
  apply (generated_colors_are_valid dyadic _ dyadic_in_range dyadic_doubles
           dyadic_level_generated).
Defined.

(** X15: the rank shown for an integer score: Student up to 15, Adept from
    16 to 25, Expert from 26 to 40, Master from 41 on (the comparisons are
    strict, so 40 is still Expert). *)
Theorem rank_bands (score : Q) (z : Z) :
  score == inject_Z z ->
  (rank score = "Student"%string <-> (z <= 15)%Z)
  /\ (rank score = "Adept"%string <-> (16 <= z <= 25)%Z)
  /\ (rank score = "Expert"%string <-> (26 <= z <= 40)%Z)
  /\ (rank score = "Master"%string <-> (41 <= z)%Z).
Proof.
  intro E. unfold rank, JS.gtb.
  assert (T : forall t : Z,
             JS.ltb (inject_Z t) score = (t <? z)%Z).
  { intro t. destruct (Z.ltb_spec t z) as [H | H].
    - apply JSFacts.ltb_lt. rewrite E, <- Zlt_Qlt. exact H.
    - apply JSFacts.ltb_ge. rewrite E, <- Zle_Qle. exact H. }
  change 40 with (inject_Z 40). change 25 with (inject_Z 25).
  change 15 with (inject_Z 15). rewrite !T.
  destruct (Z.ltb_spec 40 z), (Z.ltb_spec 25 z), (Z.ltb_spec 15 z);
    repeat split; intros; try discriminate; try lia; reflexivity.
Qed.

Lemma rank_bands_witness :
  40 == inject_Z 40 /\ rank 40 = "Expert"%string.
Proof.
  split; [reflexivity|].
  apply (rank_bands 40 40); [reflexivity | lia].
Defined.

(** ** The time budget *)

Lemma integer_cases (t : Q) :
  (exists z : Z, t == inject_Z z) -> 0 <= t ->
  (t < 1 -> t == 0) /\ (1 < t -> 2 <= t).
Proof.
  intros (z & Hz) H0. rewrite Hz in *.
  change 0 with (inject_Z 0) in *. change 1 with (inject_Z 1).
  change 2 with (inject_Z 2).
  rewrite <- Zle_Qle in H0.
  split; intro H; rewrite <- Zlt_Qlt in H.
  - assert (z = 0%Z) as -> by lia. reflexivity.
  - rewrite <- Zle_Qle. lia.
Qed.

Lemma budget_step (random : nat -> Q) (e : Event) (st st' : Session) (k : nat) :
  session_inv st -> (timerRef st = true -> gameState st = PLAYING) ->
  within_budget st k -> e <> Start ->
  step random e st = Some st' ->
  within_budget st' (k + (if isTick e then 1 else 0)).
Proof.
  intros (Hs & Ht & Hz) Htimer Hb He. unfold step.
  destruct (deliverable e st) eqn:Hdel; [|discriminate].
  intro H. injection H as <-.
  destruct (integer_cases (timeLeft st) Hz (proj1 Ht)) as (Hlt1 & Hgt1).
  unfold within_budget in *.
  destruct e as [|index| |];
    cbn [handle timerEffect gameState timeLeft score isTick].
  - congruence.
  - rewrite Nat.add_0_r.
    destruct (gameState st) eqn:Hg;
      try (rewrite click_ignored
             by (left; rewrite Hg; discriminate);
           rewrite Hg; exact Hb).
    destruct (levelData st) as [level|] eqn:Hl;
      [|rewrite click_ignored by (right; exact Hl); rewrite Hg; exact Hb].
    destruct Hb as (Hb1 & Hb2).
    destruct (Qeq_dec index (diffIndex level)) as [Hi | Hi].
    + rewrite (click_correct_fields random index st level Hg Hl Hi).
      cbn [gameState timeLeft score]. unfold JS.Math_min.
      destruct (Q.min_spec 60 (timeLeft st + 2)) as [[L E] | [L E]];
        rewrite E; split; try lra; intro; lra.
    + rewrite (click_wrong_fields random index st level Hg Hl Hi).
      cbn [gameState timeLeft score]. unfold JS.Math_max.
      destruct (Q.max_spec 0 (timeLeft st - 5)) as [[L E] | [L E]];
        rewrite E;
        (split;
         [ lra
         | intros _;
           destruct (Qlt_le_dec (timeLeft st) 1) as [Hsmall | Hbig];
           [pose proof (Hb2 Hsmall) | ]; lra ]).
  - cbn [deliverable] in Hdel. pose proof (Htimer Hdel) as Hg.
    rewrite Hg in Hb. destruct Hb as (Hb1 & Hb2).
    assert (K : inject_Z (Z.of_nat (k + 1)) == inject_Z (Z.of_nat k) + 1).
    { rewrite Nat2Z.inj_add, inject_Z_plus. reflexivity. }
    destruct (Qlt_le_dec 1 (timeLeft st)) as [Hgt | Hle].
    + rewrite (tick_running st Hgt). cbn [gameState timeLeft score].
      rewrite Hg, K. pose proof (Hgt1 Hgt).
      split; [lra | intro; lra].
    + rewrite (tick_expired st Hle). cbn [gameState timeLeft score].
      rewrite K.
      destruct (Qlt_le_dec (timeLeft st) 1) as [Hsmall | Hbig];
        [pose proof (Hb2 Hsmall) | ]; lra.
  - rewrite Nat.add_0_r. cbn [mainMenu gameState score].
    destruct (gameState st); [exact Hb | lra | exact Hb].
Qed.

Lemma budget_run (random : nat -> Q) (es : list Event) (st st' : Session)
    (k : nat) :
  forallb (fun e => negb (isStart e)) es = true ->
  session_inv st -> (timerRef st = true -> gameState st = PLAYING) ->
  within_budget st k ->
  run random es st = Some st' ->
  within_budget st' (k + ticks es).
Proof.
  revert st k. induction es as [|e es IH]; intros st k Hes Hinv Ht Hb Hrun;
    cbn [run] in Hrun.
  - injection Hrun as <-. unfold ticks. cbn. rewrite Nat.add_0_r. exact Hb.
  - cbn [forallb] in Hes. apply andb_true_iff in Hes as [He Hes].
    destruct (step random e st) as [st1|] eqn:E; [|discriminate].
    assert (He' : e <> Start) by (intros ->; discriminate He).
    pose proof (budget_step random e st st1 k Hinv Ht Hb He' E) as Hb1.
    pose proof (step_preserves_inv random e st st1 Hinv E) as Hinv1.
    assert (Ht1 : timerRef st1 = true -> gameState st1 = PLAYING)
      by (apply (timer_follows_state random e st st1 E)).
    pose proof (IH st1 _ Hes Hinv1 Ht1 Hb1 Hrun) as R.
    replace (k + ticks (e :: es))%nat
      with (k + (if isTick e then 1 else 0) + ticks es)%nat; [exact R|].
    unfold ticks. cbn [filter]. destruct (isTick e); cbn [List.length]; lia.
Qed.

(** X16: the time budget of a game: after [Start] and any events that do
    not start a new game, the seconds that have passed, plus the seconds
    left while the game is still being played, never exceed 60 plus 2 per
    point scored -- so a game that has ended lasted at most
    [60 + 2 * score] seconds. *)
Theorem play_time_is_bounded
    (random : nat -> Q) (es : list Event) (st0 st : Session) :
  forallb (fun e => negb (isStart e)) es = true ->
  run random (Start :: es) st0 = Some st ->
  inject_Z (Z.of_nat (ticks es))
  + (match gameState st with PLAYING => timeLeft st | _ => 0 end)
  <= 60 + 2 * score st.
Proof.
  intros Hes Hrun. cbn [run] in Hrun.
  destruct (step random Start st0) as [st1|] eqn:E; [|discriminate].
  assert (F : st1 = timerEffect (startGame random st0)).
  { unfold step in E. cbn in E. injection E as <-. reflexivity. }
  assert (Hinv : session_inv st1).
  { rewrite F. apply inv_timerEffect, start_establishes. }
  assert (Ht : timerRef st1 = true -> gameState st1 = PLAYING)
    by (apply (timer_follows_state random Start st0 st1 E)).
  assert (Hb : within_budget st1 0).
  { rewrite F, startGame_fields. unfold within_budget.
    cbn [timerEffect gameState timeLeft score].
    change (inject_Z (Z.of_nat 0)) with 0.
    split; [lra | intro; lra]. }
  pose proof (budget_run random es st1 st 0 Hes Hinv Ht Hb Hrun) as R.
  cbn [Nat.add] in R. unfold within_budget in R.
  destruct (gameState st); [lra | destruct R; lra | lra].
Qed.

Lemma play_time_is_bounded_witness :
  forallb (fun e => negb (isStart e))
          (Tick :: Tick :: Tick :: CellClicked 20 :: repeat Tick 59) = true
  /\ exists st : Session,
       run cycle (Start :: Tick :: Tick :: Tick :: CellClicked 20
                    :: repeat Tick 59) initial = Some st
       /\ gameState st = GAMEOVER
       /\ score st == 1
       /\ inject_Z (Z.of_nat (ticks (Tick :: Tick :: Tick :: CellClicked 20
                                       :: repeat Tick 59)))
          + (match gameState st with PLAYING => timeLeft st | _ => 0 end)
          <= 60 + 2 * score st.
Proof.
  split; [reflexivity|].
  assert (G : option_map (fun st => (gameState st, score st))
                (run cycle (Start :: Tick :: Tick :: Tick :: CellClicked 20
                              :: repeat Tick 59) initial)
              = Some (GAMEOVER, 1))
    by (vm_compute; reflexivity).
  destruct (run cycle (Start :: Tick :: Tick :: Tick :: CellClicked 20
                         :: repeat Tick 59) initial) as [st|] eqn:E;
    [|discriminate G].
  cbn [option_map] in G. injection G as Hg Hs.
  exists st. split; [reflexivity|]. split; [exact Hg|].
  split; [rewrite Hs; reflexivity|].
  exact (play_time_is_bounded cycle
           (Tick :: Tick :: Tick :: CellClicked 20 :: repeat Tick 59)
           initial st eq_refl E).
Defined.

(** ** Difficulty and stray clicks *)

(** X17: the difficulty never eases: a higher difficulty never gives a
    larger perturbation, it gives a strictly smaller one up to difficulty
    54, and from difficulty 0 on the perturbation stays within
    [[1.5, 15]]. *)
Theorem difficulty_never_eases (d d' : Q) :
  d <= d' ->
  delta d' <= delta d
  /\ (d < d' -> d' <= 54 -> delta d' < delta d)
  /\ (0 <= d -> 1.5 <= delta d' <= 15).
Proof.
  intro H. unfold delta, JS.Math_max.
  destruct (Q.max_spec 1.5 (15 - d * 0.25)) as [[L E] | [L E]];
    destruct (Q.max_spec 1.5 (15 - d' * 0.25)) as [[L' E'] | [L' E']];
    rewrite E, E'; repeat split; intros; lra.
Qed.

Lemma difficulty_never_eases_witness :
  3 <= 10 /\ delta 10 < delta 3.
Proof.
  split; [discriminate|].
  apply (difficulty_never_eases 3 10); [discriminate | reflexivity |
                                        discriminate].
Defined.

(** X18: [handleBlockClick] does not check its index: while a reachable
    game is being played (the random source returning binary64 values), a
    click whose index is negative, 25 or more, or
    not an integer is handled as a wrong click -- it costs 5 seconds and
    changes neither the score nor the round. *)
Theorem stray_click_is_a_wrong_click
    (random : nat -> Q) (st : Session) (index : Q) :
  in_range random -> returns_doubles random ->
  reachable random st -> gameState st = PLAYING ->
  index < 0 \/ 25 <= index \/ (forall z : Z, ~ index == inject_Z z) ->
  exists st' : Session,
    step random (CellClicked index) st = Some st'
    /\ score st' = score st
    /\ timeLeft st' = Qmax 0 (timeLeft st - 5)
    /\ levelData st' = levelData st
    /\ lastDiff st' = lastDiff st
    /\ gameState st' = PLAYING.
Proof.
  intros Hrange Hdb Hr Hg Hidx.
  destruct (playing_round_generated random st Hr Hg)
    as (level & Hl & d & q & n & _ & _ & E).
  destruct (generated_index random Hrange Hdb q n) as (z & Hz & Hz0 & Hz25).
  rewrite <- E in Hz.
  assert (Hne : ~ index == diffIndex level).
  { rewrite Hz. intro Hi.
    rewrite Zle_Qle in Hz0. rewrite Zlt_Qlt in Hz25.
    change (inject_Z 0) with 0 in Hz0. change (inject_Z 25) with 25 in Hz25.
    destruct Hidx as [H | [H | H]]; [lra | lra | exact (H z Hi)]. }
  eexists. split.
  - unfold step. cbn [deliverable handle].
    rewrite (click_wrong_fields random index st level Hg Hl Hne).
    reflexivity.
  - cbn. rewrite Hl. repeat split; reflexivity.
Qed.

Lemma stray_click_is_a_wrong_click_witness :
  in_range dyadic /\ returns_doubles dyadic
  /\ reachable dyadic opening_dyadic /\ gameState opening_dyadic = PLAYING
  /\ 25 <= 31
  /\ exists st' : Session,
       step dyadic (CellClicked 31) opening_dyadic = Some st'
       /\ score st' = score opening_dyadic.
Proof.
  split; [exact dyadic_in_range|]. split; [exact dyadic_doubles|].
  split; [exact opening_dyadic_reachable|].
  split; [exact opening_dyadic_playing|]. split; [discriminate|].
  destruct (stray_click_is_a_wrong_click dyadic opening_dyadic 31
              dyadic_in_range dyadic_doubles opening_dyadic_reachable
              opening_dyadic_playing)
    as (st' & H1 & H2 & _).
  - right. left. discriminate.
  - exists st'. split; assumption.
Defined.
